(** * Pose service of the tennis-serve analyser: gesture detector,
      key-moment extractor and frame collection loop

    Shallow embedding of [services/poseService.ts]:
    - [analyzeKinematics]   the kinematic key-moment extractor,
    - [detectLoop]          one tick of the hands-free gesture detector,
    - [processFrame]        one animation frame of the collection loop,
    and of two of its callers: [handleProcessPose] of the upload form
    ([components/FileUpload.tsx]) and the closest-frame lookup of the report
    view and the prompt builder ([App.tsx], [services/geminiService.ts]).

    JavaScript numbers are IEEE-754 binary64 values, modelled by Rocq's
    primitive floats.  The three [Math] functions the source calls are
    implementation-approximated in ECMAScript, so they are an interface
    ([JSMath]) every result below is generic in. *)

From Stdlib Require Import Floats ZArith Lia.
From stdpp Require Import base option list.

Local Open Scope Z_scope.

(** ** JavaScript numbers *)

Module JSNumber.

Definition Infinity : float := infinity.
Definition NaN : float := nan.

(** [Math.PI], the double nearest to pi. *)
Definition Math_PI : float := 0x1.921fb54442d18p+1%float.

(** [a > b] is [b < a], also on NaN. *)
Definition gtb (a b : float) : bool := (b <? a)%float.

End JSNumber.

Import JSNumber.

(** The host's [Math] object, as far as the service uses it.  [Math_pow]
    also stands for the [**] operator (the same abstract operation,
    Number::exponentiate). *)
Class JSMath := {
  Math_sqrt : float -> float;
  Math_pow : float -> float -> float;
  Math_acos : float -> float;
}.

(** ** Data model ([types.ts]) *)

(** A MediaPipe [NormalizedLandmark]; only the coordinates are read. *)
Record NormalizedLandmark := {
  x : float;
  y : float;
  z : float;
}.

Record LandmarkFrame := {
  time : float;
  landmarks : list NormalizedLandmark;
}.

(** Frames are objects: a [PoseData] array holds references to them, and
    [Array.prototype.indexOf] compares references, not contents.  The heap
    maps every reference to the frame it points to; nothing in the service
    mutates a frame after it is created. *)
Definition ref := nat.
Definition Heap := ref -> LandmarkFrame.
Abbreviation PoseData := (list ref).

(** [KeyMoments]: the four keys the extractor writes, each [number | null]. *)
Record KeyMoments := {
  ServeStart : option float;
  TossPeak : option float;
  TrophyPose : option float;
  ContactPoint : option float;
}.

(** ** The key-moment extractor *)

Section Extractor.
Context {M : JSMath}.
Variable h : Heap.

Definition LEFT_WRIST : nat := 15.
Definition RIGHT_WRIST : nat := 16.
Definition RIGHT_SHOULDER : nat := 12.
Definition RIGHT_ELBOW : nat := 14.

(** [frame.landmarks[joint]], [undefined] past the end of the array. *)
Definition joint (j : nat) (frame : ref) : option NormalizedLandmark :=
  landmarks (h frame) !! j.

(** [cur?.landmarks[j].y ?? Infinity].  The inner [None] would be a
    TypeError in the source; [keepLower_joint] shows a scan never gets
    there. *)
Definition extremeY (j : nat) (cur : option ref) : float :=
  match cur with
  | None => Infinity
  | Some f => match joint j f with Some w => y w | None => NaN end
  end.

(** Body of the two running-minimum loops:
    [if (w && w.y < (cur?.landmarks[j].y ?? Infinity)) cur = frame]. *)
Definition keepLower (j : nat) (cur : option ref) (frame : ref) : option ref :=
  match joint j frame with
  | Some w => if (y w <? extremeY j cur)%float then Some frame else cur
  | None => cur
  end.

(** [poseData.indexOf(frame)]: first position holding that reference,
    [-1] when there is none. *)
Fixpoint indexOfFrom (poseData : PoseData) (frame : ref) (i : Z) : Z :=
  match poseData with
  | [] => -1
  | f :: rest => if decide (f = frame) then i else indexOfFrom rest frame (i + 1)
  end.

Definition indexOf (poseData : PoseData) (frame : ref) : Z :=
  indexOfFrom poseData frame 0.

Definition frameIndex (poseData : PoseData) (frame : option ref) : Z :=
  match frame with
  | Some f => indexOf poseData f
  | None => -1
  end.

(** [for (let i = start; i < poseData.length; i++)]: the frames visited. *)
Definition framesFrom (start : Z) (poseData : PoseData) : list ref :=
  drop (Z.to_nat start) poseData.

(** Pass 1: toss peak, over the whole buffer. *)
Definition tossPeakFrame (poseData : PoseData) : option ref :=
  foldl (keepLower LEFT_WRIST) None poseData.

Definition tossPeakIndex (poseData : PoseData) : Z :=
  frameIndex poseData (tossPeakFrame poseData).

(** Angle at the elbow in degrees; [None] is the [continue] on a
    zero-length vector. *)
Definition elbowAngleDeg (rShoulder rElbow rWrist : NormalizedLandmark) : option float :=
  let v1x := (x rWrist - x rElbow)%float in
  let v1y := (y rWrist - y rElbow)%float in
  let v2x := (x rShoulder - x rElbow)%float in
  let v2y := (y rShoulder - y rElbow)%float in
  let dotProduct := (v1x * v2x + v1y * v2y)%float in
  let mag1 := Math_sqrt (Math_pow v1x 2 + Math_pow v1y 2)%float in
  let mag2 := Math_sqrt (Math_pow v2x 2 + Math_pow v2y 2)%float in
  if (mag1 =? 0)%float || (mag2 =? 0)%float then None
  else
    let angleRad := Math_acos (dotProduct / (mag1 * mag2))%float in
    Some (angleRad * 180 / Math_PI)%float.

(** Body of the trophy loop: does this frame [break] the scan? *)
Definition isTrophyPose (frame : ref) : bool :=
  match joint RIGHT_SHOULDER frame, joint RIGHT_ELBOW frame, joint RIGHT_WRIST frame with
  | Some rShoulder, Some rElbow, Some rWrist =>
      match elbowAngleDeg rShoulder rElbow rWrist with
      | Some angleDeg =>
          gtb angleDeg 80 && (angleDeg <? 130)%float && (y rWrist <? y rElbow)%float
      | None => false
      end
  | _, _, _ => false
  end.

Fixpoint firstTrophy (frames : list ref) : option ref :=
  match frames with
  | [] => None
  | frame :: rest => if isTrophyPose frame then Some frame else firstTrophy rest
  end.

(** Pass 2: trophy pose, from the toss peak on. *)
Definition trophyPoseFrame (poseData : PoseData) : option ref :=
  let i := tossPeakIndex poseData in
  if i =? -1 then None else firstTrophy (framesFrom i poseData).

Definition trophyPoseIndex (poseData : PoseData) : Z :=
  frameIndex poseData (trophyPoseFrame poseData).

(** Pass 3: contact point, from the trophy pose on. *)
Definition contactPointFrame (poseData : PoseData) : option ref :=
  let i := trophyPoseIndex poseData in
  if i =? -1 then None
  else foldl (keepLower RIGHT_WRIST) None (framesFrom i poseData).

Definition frameTime (frame : option ref) : option float :=
  (fun f => time (h f)) <$> frame.

Definition analyzeKinematics (poseData : PoseData) (duration : float) : KeyMoments :=
  if Z.of_nat (length poseData) <? 10 then
    {| ServeStart := Some (match poseData with
                           | f :: _ => time (h f)
                           | [] => 0%float
                           end);
       TossPeak := None;
       TrophyPose := None;
       ContactPoint := None |}
  else
    {| ServeStart := frameTime (poseData !! 0%nat);
       TossPeak := frameTime (tossPeakFrame poseData);
       TrophyPose := frameTime (trophyPoseFrame poseData);
       ContactPoint := frameTime (contactPointFrame poseData) |}.

End Extractor.

(** ** Properties of the extractor *)

Section ExtractorProperties.
Context {M : JSMath}.
Variable h : Heap.

(** Frame [f], at position [i] of [l], is the first one to reach the
    lowest [y] of joint [j]: nothing in [l] is strictly below it and
    everything before it is strictly above it (or not a number). *)
Definition lowestFirst (j : nat) (l : list ref) (i : nat) (f : ref)
    (w : NormalizedLandmark) : Prop :=
  l !! i = Some f ∧ joint h j f = Some w ∧
  (y w <? Infinity)%float = true ∧
  (∀ k g wk, l !! k = Some g → joint h j g = Some wk →
             (y wk <? y w)%float = false) ∧
  (∀ k g wk, (k < i)%nat → l !! k = Some g → joint h j g = Some wk →
             (y wk <=? y w)%float = false).

(** The elbow angle as the specification words it: the angle between the
    vector elbow-to-wrist [(ux, uy)] and the vector elbow-to-shoulder
    [(vx, vy)], by the dot-product/arccos formula, in degrees. *)
Definition vectorLength (vx vy : float) : float :=
  Math_sqrt (Math_pow vx 2 + Math_pow vy 2)%float.

Definition angleBetweenDeg (ux uy vx vy : float) : float :=
  (Math_acos ((ux * vx + uy * vy) / (vectorLength ux uy * vectorLength vx vy))
   * 180 / Math_PI)%float.

(** The trophy condition in words: the right shoulder, elbow and wrist are
    there, neither vector has length zero, the angle at the elbow is
    strictly between 80 and 130 degrees and the wrist is above the elbow. *)
Definition TrophyCondition (f : ref) : Prop :=
  ∃ rShoulder rElbow rWrist,
    joint h RIGHT_SHOULDER f = Some rShoulder ∧
    joint h RIGHT_ELBOW f = Some rElbow ∧
    joint h RIGHT_WRIST f = Some rWrist ∧
    let ux := (x rWrist - x rElbow)%float in
    let uy := (y rWrist - y rElbow)%float in
    let vx := (x rShoulder - x rElbow)%float in
    let vy := (y rShoulder - y rElbow)%float in
    (vectorLength ux uy =? 0)%float = false ∧
    (vectorLength vx vy =? 0)%float = false ∧
    (80 <? angleBetweenDeg ux uy vx vy)%float = true ∧
    (angleBetweenDeg ux uy vx vy <? 130)%float = true ∧
    (y rWrist <? y rElbow)%float = true.

(** Pass 3 as the specification words it, for comparison with
    [contactPointFrame]: a running "new minimum or equal" comparison, which
    keeps the last frame reaching the minimum. *)
Definition keepLowerOrEqual (j : nat) (cur : option ref) (frame : ref) : option ref :=
  match joint h j frame with
  | Some w => if (y w <=? extremeY h j cur)%float then Some frame else cur
  | None => cur
  end.

Definition contactPointFrame_lastTie (poseData : PoseData) : option ref :=
  let i := trophyPoseIndex h poseData in
  if i =? -1 then None
  else foldl (keepLowerOrEqual RIGHT_WRIST) None (framesFrom i poseData).

(** [poseData.indexOf(contactPointFrame)], the way the source takes the
    index of the other two frames. *)
Definition contactPointIndex (poseData : PoseData) : Z :=
  frameIndex poseData (contactPointFrame h poseData).

End ExtractorProperties.

(** ** The gesture detector ([detectSignalInStream]) *)

Inductive SignalState := idle | detecting | locked.

#[global] Instance SignalState_eq_dec : EqDecision SignalState.
Proof. solve_decision. Defined.

(** What [poseLandmarker.detectForVideo] returns on one tick:
    [results.landmarks], one landmark array per detected body. *)
Abbreviation Detection := (list (list NormalizedLandmark)).

(** The closure variables of one activation, the calls made to
    [onStateChange] so far (oldest first), and whether [detectLoop] has
    asked for another animation frame. *)
Record Detector := {
  lastWristPos : option (float * float);
  stillFrameCount : Z;
  lastReportedState : SignalState;
  onStateChange : list SignalState;
  scheduled : bool;
}.

Section GestureDetector.
Context {M : JSMath}.

Definition WRIST_L : nat := 15.
Definition WRIST_R : nat := 16.
Definition SHOULDER_L : nat := 11.
Definition SHOULDER_R : nat := 12.
(** 0.02, as the double the literal denotes *)
Definition STILLNESS_THRESHOLD : float := 0x1.47ae147ae147bp-6%float.
Definition STILL_FRAMES_REQUIRED : Z := 120.

(** The detector as [detectSignalInStream] leaves it before the first
    call of [detectLoop]. *)
Definition initDetector : Detector :=
  {| lastWristPos := None;
     stillFrameCount := 0;
     lastReportedState := idle;
     onStateChange := [];
     scheduled := true |}.

Definition reportState (newState : SignalState) (d : Detector) : Detector :=
  if decide (newState = lastReportedState d) then d
  else {| lastWristPos := lastWristPos d;
          stillFrameCount := stillFrameCount d;
          lastReportedState := newState;
          onStateChange := onStateChange d ++ [newState];
          scheduled := scheduled d |}.

Definition setStillness (count : Z) (pos : option (float * float)) (d : Detector) : Detector :=
  {| lastWristPos := pos;
     stillFrameCount := count;
     lastReportedState := lastReportedState d;
     onStateChange := onStateChange d;
     scheduled := scheduled d |}.

Definition setScheduled (b : bool) (d : Detector) : Detector :=
  {| lastWristPos := lastWristPos d;
     stillFrameCount := stillFrameCount d;
     lastReportedState := lastReportedState d;
     onStateChange := onStateChange d;
     scheduled := b |}.

(** [wrist && shoulder && wrist.y < shoulder.y] *)
Definition above (wrist shoulder : option NormalizedLandmark) : bool :=
  match wrist, shoulder with
  | Some w, Some s => (y w <? y s)%float
  | _, _ => false
  end.

(** The raised wrist of a tick, left side first; [None] is
    [handRaised = false]. *)
Definition raisedWrist (results : Detection) : option NormalizedLandmark :=
  match results with
  | [] => None
  | lms :: _ =>
      let wristL := lms !! WRIST_L in
      let shoulderL := lms !! SHOULDER_L in
      let wristR := lms !! WRIST_R in
      let shoulderR := lms !! SHOULDER_R in
      if above wristL shoulderL then wristL
      else if above wristR shoulderR then wristR
      else None
  end.

Definition distance (w : NormalizedLandmark) (p : float * float) : float :=
  Math_sqrt (Math_pow (x w - fst p) 2 + Math_pow (y w - snd p) 2)%float.

(** One call of [detectLoop]. *)
Definition detectLoop (d : Detector) (results : Detection) : Detector :=
  let d1 :=
    match raisedWrist results with
    | Some w =>
        let d' := reportState detecting d in
        match lastWristPos d' with
        | Some p =>
            if (distance w p <? STILLNESS_THRESHOLD)%float
            then setStillness (stillFrameCount d' + 1) (lastWristPos d') d'
            else setStillness 1 (Some (x w, y w)) d'
        | None => setStillness 1 (Some (x w, y w)) d'
        end
    | None => setStillness 0 None (reportState idle d)
    end in
  if STILL_FRAMES_REQUIRED <=? stillFrameCount d1
  then setScheduled false (reportState locked d1)
  else setScheduled true d1.

(** The browser runs [detectLoop] once per animation frame for as long
    as one was requested; [ticks] are the detections of the successive
    frames. *)
Fixpoint runDetector (d : Detector) (ticks : list Detection) : Detector :=
  match ticks with
  | [] => d
  | results :: rest =>
      if scheduled d then runDetector (detectLoop d results) rest else d
  end.

(** One activation: the calls [onStateChange] receives. *)
Definition detectSignalInStream (ticks : list Detection) : list SignalState :=
  onStateChange (runDetector initDetector ticks).

(** A caller that restarts the detector: every activation has closure
    variables of its own and reports to the same callback. *)
Definition activations (runs : list (list Detection)) : list SignalState :=
  concat (detectSignalInStream <$> runs).

End GestureDetector.

(** ** Properties of the gesture detector *)

Section DetectorProperties.
Context {M : JSMath}.

(** A detector that tracks a raised wrist anchored at [p]. *)
Definition tracking (p : float * float) (count : Z) (calls : list SignalState) : Detector :=
  {| lastWristPos := Some p;
     stillFrameCount := count;
     lastReportedState := detecting;
     onStateChange := calls;
     scheduled := true |}.

(** A tick with a raised wrist closer to the anchor than the threshold. *)
Definition stillAt (p : float * float) (results : Detection) : bool :=
  match raisedWrist results with
  | Some w => (distance w p <? STILLNESS_THRESHOLD)%float
  | None => false
  end.

(** How often [locked] was reported. *)
Definition lockedReports (calls : list SignalState) : nat :=
  length (filter (fun s => s = locked) calls).

(** Along a run, the loop is scheduled as long as [locked] has not been
    reported, and [locked] is reported last and once. *)
Definition lockedLast (d0 d : Detector) : Prop :=
  ∃ extra,
    (locked ∉ extra) ∧
    ((scheduled d = true ∧ onStateChange d = onStateChange d0 ++ extra) ∨
     (scheduled d = false ∧ onStateChange d = onStateChange d0 ++ extra ++ [locked])).

End DetectorProperties.

(** ** The frame collection loop ([processVideoForPose]) *)

(** What [processFrame] reads from the video element and the pose model on
    one animation frame. *)
Record VideoFrame := {
  paused : bool;
  ended : bool;
  currentTime : float;
  detected : Detection;
}.

(** [poseData] in push order, [lastTime], the calls made to [setProgress]
    (oldest first), and whether the promise has been resolved. *)
Record Collector := {
  poseData : list LandmarkFrame;
  lastTime : float;
  setProgress : list float;
  resolved : bool;
}.

Section FrameCollection.

Definition initCollector : Collector :=
  {| poseData := []; lastTime := (-1)%float; setProgress := []; resolved := false |}.

(** One call of [processFrame]; [duration] is [video.duration], read once
    before the loop starts. *)
Definition processFrame (duration : float) (c : Collector) (v : VideoFrame) : Collector :=
  if paused v || ended v then
    {| poseData := poseData c;
       lastTime := lastTime c;
       setProgress := setProgress c ++ [100%float];
       resolved := true |}
  else if gtb (currentTime v) (lastTime c) then
    let pushed :=
      match detected v with
      | lms :: _ => poseData c ++ [{| time := currentTime v; landmarks := lms |}]
      | [] => poseData c
      end in
    let progress := (currentTime v / duration * 100)%float in
    {| poseData := pushed;
       lastTime := currentTime v;
       setProgress := setProgress c ++ [progress];
       resolved := false |}
  else c.

(** The loop stops asking for animation frames once it has resolved. *)
Fixpoint runCollector (duration : float) (c : Collector) (frames : list VideoFrame) : Collector :=
  match frames with
  | [] => c
  | v :: rest =>
      if resolved c then c else runCollector duration (processFrame duration c v) rest
  end.

Definition processVideoForPose (duration : float) (frames : list VideoFrame) : Collector :=
  runCollector duration initCollector frames.

(** The buffer as the extractor receives it: every push made a new
    object, so the i-th entry is a reference of its own. *)
Definition heapOf (frames : list LandmarkFrame) : Heap :=
  fun r => default {| time := 0%float; landmarks := [] |} (frames !! r).

Definition refsOf (frames : list LandmarkFrame) : PoseData :=
  seq 0 (length frames).

Definition inPercentRange (p : float) : bool :=
  (0 <=? p)%float && (p <=? 100)%float.

End FrameCollection.

(** ** Callers of the pose service *)

Section Callers.
Context {M : JSMath}.

(** [handleProcessPose] of the upload form: wait for the collection loop,
    then extract the key moments from what it collected.  [None] is the
    promise that has not resolved. *)
Definition handleProcessPose (duration : float) (frames : list VideoFrame)
    : option (list LandmarkFrame * KeyMoments) :=
  let c := processVideoForPose duration frames in
  if resolved c then
    let data := poseData c in
    Some (data, analyzeKinematics (heapOf data) (refsOf data) duration)
  else None.




End Callers.

(** ** Properties of buffers and call logs *)

Section BufferProperties.
Context {M : JSMath}.

(** Frame times grow strictly along the buffer. *)
Definition timesIncrease (h : Heap) (l : PoseData) : Prop :=
  ∀ (i j : nat) f g, (i < j)%nat → l !! i = Some f → l !! j = Some g →
                     (time (h f) <? time (h g))%float = true.

Definition framesIncrease (l : list LandmarkFrame) : Prop :=
  ∀ (i j : nat) f g, (i < j)%nat → l !! i = Some f → l !! j = Some g →
                     (time f <? time g)%float = true.

(** A buffered frame is what a playing video frame with a detection
    produced: its clock and its first detected body. *)
Definition collectedFrom (v : VideoFrame) (f : LandmarkFrame) : Prop :=
  paused v || ended v = false ∧ time f = currentTime v ∧
  ∃ others, detected v = landmarks f :: others.

(** Two successive reports [a] then [b] of the state callback: they
    differ, nothing follows [locked], and [locked] follows [detecting]. *)
Definition validTransition (a b : SignalState) : Prop :=
  a ≠ b ∧ a ≠ locked ∧ (b = locked → a = detecting).

(** What the loop keeps true from one animation frame to the next. *)
Definition collecting (frames : list VideoFrame) (c : Collector) : Prop :=
  framesIncrease (poseData c) ∧
  (∀ f, f ∈ poseData c → (time f <=? lastTime c)%float = true) ∧
  (∀ f, f ∈ poseData c → ∃ v, v ∈ frames ∧ collectedFrom v f) ∧
  (length (poseData c) + (if resolved c then 1 else 0) ≤ length (setProgress c))%nat.

(** Every report is a valid transition from the one before it, [prev]
    being what was reported before the first of [calls]. *)
Fixpoint chained (prev : SignalState) (calls : list SignalState) : Prop :=
  match calls with
  | [] => True
  | s :: rest => validTransition prev s ∧ chained s rest
  end.

(** The counter counts the ticks since the remembered position was taken:
    it is 0 with nothing remembered, or the ticks end with the tick [t0]
    whose raised wrist is remembered, followed by [count - 1] ticks that
    stayed within the threshold of it. *)
Definition anchored (ticks : list Detection) (d : Detector) : Prop :=
  (stillFrameCount d = 0 ∧ lastWristPos d = None) ∨
  ∃ pre t0 w0 rest,
    ticks = pre ++ t0 :: rest ∧ raisedWrist t0 = Some w0 ∧
    lastWristPos d = Some (x w0, y w0) ∧
    stillFrameCount d = 1 + Z.of_nat (length rest) ∧
    Forall (fun t => stillAt (x w0, y w0) t = true) rest.

(** Two heaps show the extractor the same thing on the frames of a buffer:
    the same time, and the same [x] and [y] at the four joints it looks
    at. *)
Definition sameReadings (h1 h2 : Heap) (buf : PoseData) : Prop :=
  ∀ f, f ∈ buf →
    time (h1 f) = time (h2 f) ∧
    ∀ j, j = LEFT_WRIST ∨ j = RIGHT_WRIST ∨ j = RIGHT_SHOULDER ∨ j = RIGHT_ELBOW →
         ((fun w => (x w, y w)) <$> joint h1 j f) =
         ((fun w => (x w, y w)) <$> joint h2 j f).

End BufferProperties.

(** ** Sample data *)

Module Samples.

(** The host's [Math] on the arguments the sample data produce: the
    square root is correctly rounded, squares of the sample coordinates
    are exact, and the arc cosine of 0 is the double nearest to pi/2
    (1 and -1 give 0 and [Math.PI]).  Nothing below evaluates it
    elsewhere. *)
#[export] Instance sampleMath : JSMath := {|
  Math_sqrt := PrimFloat.sqrt;
  Math_pow b e := if (e =? 2)%float then (b * b)%float else NaN;
  Math_acos c :=
    if (c =? 0)%float then 0x1.921fb54442d18p+0%float
    else if (c =? 1)%float then 0%float
    else if (c =? -1)%float then Math_PI
    else NaN;
|}.

Definition pt (px py : float) : NormalizedLandmark :=
  {| x := px; y := py; z := 0%float |}.

(** A full 33-landmark body with the given wrists, right shoulder and
    right elbow; every other joint sits at the image centre. *)
Definition body (lWrist rWrist rShoulder rElbow : NormalizedLandmark)
    : list NormalizedLandmark :=
  (fun i : nat =>
     if decide (i = LEFT_WRIST) then lWrist
     else if decide (i = RIGHT_WRIST) then rWrist
     else if decide (i = RIGHT_SHOULDER) then rShoulder
     else if decide (i = RIGHT_ELBOW) then rElbow
     else pt 0.5 0.5) <$> seq 0 33.

(** Racket arm bent at a right angle, wrist above the elbow. *)
Definition trophyBody (lWristY rWristY : float) : list NormalizedLandmark :=
  body (pt 0.25 lWristY) (pt 0.5 rWristY) (pt 0.75 0.5) (pt 0.5 0.5).

(** Racket arm hanging: the wrist is below the elbow. *)
Definition restBody (lWristY rWristY : float) : list NormalizedLandmark :=
  body (pt 0.25 lWristY) (pt 0.5 rWristY) (pt 0.75 0) (pt 0.5 0).

Definition frame (t : float) (lms : list NormalizedLandmark) : LandmarkFrame :=
  {| time := t; landmarks := lms |}.

(** The 15-frame serve: the toss rises until frame 5, the arm is in the
    trophy position at frame 8, the racket wrist is highest at frame 12. *)
Definition serve15 : list LandmarkFrame :=
  [ frame 0 (restBody 0.875 0.75);
    frame 1 (restBody 0.75 0.75);
    frame 2 (restBody 0.625 0.75);
    frame 3 (restBody 0.5 0.75);
    frame 4 (restBody 0.375 0.75);
    frame 5 (restBody 0.25 0.75);
    frame 6 (restBody 0.375 0.75);
    frame 7 (restBody 0.5 0.75);
    frame 8 (trophyBody 0.625 0.375);
    frame 9 (trophyBody 0.75 0.3125);
    frame 10 (trophyBody 0.75 0.25);
    frame 11 (trophyBody 0.75 0.1875);
    frame 12 (trophyBody 0.75 0.125);
    frame 13 (restBody 0.75 0.25);
    frame 14 (restBody 0.75 0.5) ]%float.

(** Ten frames of a player holding the trophy position without moving. *)
Definition held10 : list LandmarkFrame :=
  (fun t => frame t (trophyBody 0.25 0.25))
    <$> [0; 1; 2; 3; 4; 5; 6; 7; 8; 9]%float.

(** Nine frame objects, the first of them stored twice: a trophy-position
    frame [0], a frame with the highest racket wrist [1], the toss peak
    [2], and six frames at rest. *)
Definition sharedHeap : Heap :=
  heapOf [ frame 0.5 (trophyBody 0.5 0.25);
           frame 0.5 (restBody 0.5 0.125);
           frame 0.5 (restBody 0.125 0.5);
           frame 1 (restBody 0.5 0.5);
           frame 2 (restBody 0.5 0.5);
           frame 3 (restBody 0.5 0.5);
           frame 4 (restBody 0.5 0.5);
           frame 5 (restBody 0.5 0.5);
           frame 6 (restBody 0.5 0.5) ]%float.

Definition sharedBuffer : PoseData := [0; 1; 2; 0; 3; 4; 5; 6; 7; 8]%nat.

(** Detector ticks: nobody in view, and a body whose left wrist is at
    [(px, py)] with both shoulders at height 0.5 and the right hand down. *)
Definition noBody : Detection := [].

Definition leftWristAt (px py : float) : Detection :=
  [ body (pt px py) (pt 0.75 0.75) (pt 0.75 0.5) (pt 0.75 0.625) ]%float.

(** Video frames for the collection loop. *)
Definition playing (t : float) (d : Detection) : VideoFrame :=
  {| paused := false; ended := false; currentTime := t; detected := d |}.

Definition finished (t : float) : VideoFrame :=
  {| paused := false; ended := true; currentTime := t; detected := [] |}.

(** The 15-frame serve seen by a pose model that reports another depth
    for every joint and puts the nose elsewhere. *)
Definition otherDepth (f : LandmarkFrame) : LandmarkFrame :=
  {| time := time f;
     landmarks :=
       pt 0.125 0.125 ::
       ((fun w => {| x := x w; y := y w; z := 1%float |}) <$> tail (landmarks f)) |}.

Definition serve15OtherDepth : list LandmarkFrame := otherDepth <$> serve15.

(** Playback of the 15-frame serve: every frame is presented twice, the
    pose model finds the body each time, and the video ends at 15 s. *)
Definition serve15Playback : list VideoFrame :=
  flat_map (fun f => [playing (time f) [landmarks f]; playing (time f) [landmarks f]])
           serve15
  ++ [finished 15].

End Samples.

Import Samples.

(** ** Order of JavaScript numbers *)

Module JSNumberFacts.

(** Order facts on the specification floats, by cases on the class,
    the sign, the exponent and the mantissa. *)
Ltac sf_order :=
  repeat match goal with
  | s : bool |- _ => destruct s
  | |- context [Z.compare ?a ?b] => destruct (Z.compare_spec a b)
  | H : context [Z.compare ?a ?b] |- _ => destruct (Z.compare_spec a b)
  | |- context [Pos.compare_cont Eq ?a ?b] =>
      change (Pos.compare_cont Eq a b) with (Pos.compare a b);
      destruct (Pos.compare_spec a b)
  | H : context [Pos.compare_cont Eq ?a ?b] |- _ =>
      change (Pos.compare_cont Eq a b) with (Pos.compare a b) in H;
      destruct (Pos.compare_spec a b)
  end; simpl in *; try discriminate; try reflexivity; try lia.

Ltac sf_cases a b :=
  destruct a as [?|?| |? ? ?], b as [?|?| |? ? ?];
  simpl; try discriminate; try reflexivity.

Lemma SFltb_trans a b c :
  SFltb a b = true -> SFltb b c = true -> SFltb a c = true.
Proof.
  unfold SFltb, SFcompare. sf_cases a b; destruct c as [?|?| |? ? ?];
    simpl; try discriminate; try reflexivity; sf_order.
Qed.

Lemma SFleb_ltb_trans a b c :
  SFleb a b = true -> SFltb b c = true -> SFltb a c = true.
Proof.
  unfold SFleb, SFltb, SFcompare. sf_cases a b; destruct c as [?|?| |? ? ?];
    simpl; try discriminate; try reflexivity; sf_order.
Qed.

Lemma SFleb_not_ltb a b : SFleb b a = true -> SFltb a b = false.
Proof. unfold SFleb, SFltb, SFcompare. sf_cases a b; sf_order. Qed.

Lemma SFltb_leb a b : SFltb a b = true -> SFleb a b = true.
Proof. unfold SFleb, SFltb, SFcompare. sf_cases a b; sf_order. Qed.

Lemma SFltb_leb_refl a b : SFltb a b = true -> SFleb a a = true.
Proof. unfold SFleb, SFltb, SFcompare. sf_cases a b; sf_order. Qed.

Lemma SFltb_infinity a b :
  SFltb a b = true -> SFltb a (S754_infinity false) = true.
Proof. unfold SFltb, SFcompare. sf_cases a b; sf_order. Qed.

(** The same facts on JavaScript numbers. *)

Lemma ltb_trans (a b c : float) :
  (a <? b)%float = true -> (b <? c)%float = true -> (a <? c)%float = true.
Proof. rewrite !ltb_spec. apply SFltb_trans. Qed.

Lemma leb_ltb_trans (a b c : float) :
  (a <=? b)%float = true -> (b <? c)%float = true -> (a <? c)%float = true.
Proof. rewrite leb_spec, !ltb_spec. apply SFleb_ltb_trans. Qed.

Lemma leb_not_ltb (a b : float) :
  (b <=? a)%float = true -> (a <? b)%float = false.
Proof. rewrite leb_spec, ltb_spec. apply SFleb_not_ltb. Qed.

Lemma ltb_leb (a b : float) :
  (a <? b)%float = true -> (a <=? b)%float = true.
Proof. rewrite leb_spec, ltb_spec. apply SFltb_leb. Qed.

(** A number that is below another is not NaN, so it equals itself. *)
Lemma ltb_leb_refl (a b : float) :
  (a <? b)%float = true -> (a <=? a)%float = true.
Proof. rewrite leb_spec, ltb_spec. apply SFltb_leb_refl. Qed.

Lemma ltb_irrefl (a : float) : (a <? a)%float = false.
Proof.
  destruct (a <? a)%float eqn:E; [|reflexivity].
  pose proof (leb_not_ltb a a (ltb_leb a a E)). congruence.
Qed.

(** Whatever is below some number is below [Infinity]: it is neither NaN
    nor [Infinity] itself. *)
Lemma ltb_Infinity (a b : float) :
  (a <? b)%float = true -> (a <? Infinity)%float = true.
Proof.
  rewrite !ltb_spec. change (Prim2SF Infinity) with (S754_infinity false).
  apply SFltb_infinity.
Qed.

Lemma SFltb_leb_refl_r a b : SFltb a b = true -> SFleb b b = true.
Proof. unfold SFleb, SFltb, SFcompare. sf_cases a b; sf_order. Qed.

(** Likewise for the larger of two numbers. *)
Lemma ltb_leb_refl_r (a b : float) :
  (a <? b)%float = true -> (b <=? b)%float = true.
Proof. rewrite leb_spec, ltb_spec. apply SFltb_leb_refl_r. Qed.

Lemma SFleb_total a b :
  SFltb a (S754_infinity false) = true -> SFltb b (S754_infinity false) = true ->
  SFltb b a = false -> SFleb a b = true.
Proof. unfold SFleb, SFltb, SFcompare. sf_cases a b; sf_order. Qed.

(** Numbers below [Infinity] are totally ordered. *)
Lemma not_ltb_leb (a b : float) :
  (a <? Infinity)%float = true -> (b <? Infinity)%float = true ->
  (b <? a)%float = false -> (a <=? b)%float = true.
Proof.
  rewrite leb_spec, !ltb_spec. change (Prim2SF Infinity) with (S754_infinity false).
  apply SFleb_total.
Qed.

End JSNumberFacts.

Import JSNumberFacts.

(** ** Facts about the extractor *)

Section ExtractorFacts.
Context {M : JSMath}.
Variable h : Heap.

(** *** [indexOf] *)

Lemma indexOfFrom_shift l f i : indexOfFrom l f i = -1 ∨ i ≤ indexOfFrom l f i.
Proof.
  revert i. induction l as [|g l IH]; intros i; simpl; [by left|].
  case_decide; [right; lia|]. destruct (IH (i + 1)); [by left|right; lia].
Qed.

Lemma indexOfFrom_found l f i (n : nat) :
  l !! n = Some f → (∀ k, (k < n)%nat → l !! k ≠ Some f) →
  indexOfFrom l f i = i + Z.of_nat n.
Proof.
  revert i n. induction l as [|g l IH]; intros i n Hn Hfirst; [done|].
  simpl. destruct n as [|n]; simpl in Hn.
  - simplify_eq. rewrite decide_True by done. lia.
  - rewrite decide_False.
    + rewrite (IH (i + 1) n Hn); [lia|].
      intros k Hk. apply (Hfirst (S k)). lia.
    + intros ->. by apply (Hfirst 0%nat); [lia|].
Qed.

(** In a buffer of pairwise distinct frame objects, [indexOf] is the
    position the frame was read at. *)
Lemma indexOf_NoDup l f (n : nat) :
  NoDup l → l !! n = Some f → indexOf l f = Z.of_nat n.
Proof.
  intros Hnd Hn. unfold indexOf. rewrite (indexOfFrom_found l f 0 n Hn); [lia|].
  intros k Hk Hkf. pose proof (NoDup_lookup l k n f Hnd Hkf Hn). lia.
Qed.

Lemma first_occurrence (l : list ref) f :
  f ∈ l → ∃ n : nat, l !! n = Some f ∧ ∀ k, (k < n)%nat → l !! k ≠ Some f.
Proof.
  induction l as [|g l IH]; intros Hin.
  - by apply elem_of_nil in Hin.
  - destruct (decide (g = f)) as [->|Hne].
    + exists 0%nat. split; [done|]. intros k Hk. lia.
    + apply elem_of_cons in Hin as [->|Hin]; [done|].
      destruct (IH Hin) as (n & Hn & Hfirst). exists (S n). split; [done|].
      intros [|k] Hk; simpl; [congruence|]. apply Hfirst. lia.
Qed.

(** [indexOf] always lands on an occurrence of the frame, the first one. *)
Lemma indexOf_elem l f :
  f ∈ l →
  ∃ n : nat, indexOf l f = Z.of_nat n ∧ l !! n = Some f ∧
             ∀ k, (k < n)%nat → l !! k ≠ Some f.
Proof.
  intros (n & Hn & Hfirst)%first_occurrence. exists n.
  split; [|done]. unfold indexOf. rewrite (indexOfFrom_found l f 0 n); [lia|done..].
Qed.

(** *** The running-minimum scans *)

Lemma bool_false_of_not (b : bool) : (b = true → False) → b = false.
Proof. destruct b; [intros H; destruct H|]; done. Qed.

Lemma scan_spec j l :
  match foldl (keepLower h j) None l with
  | None => ∀ k g wk, l !! k = Some g → joint h j g = Some wk →
                      (y wk <? Infinity)%float = false
  | Some f => ∃ i w, lowestFirst h j l i f w
  end.
Proof.
  induction l as [|a l IH] using rev_ind; [by intros [|?]|].
  rewrite foldl_app. simpl. unfold keepLower at 1.
  destruct (joint h j a) as [wa|] eqn:Ja.
  2:{ destruct (foldl (keepLower h j) None l) as [f|].
      - destruct IH as (i & w & Hi & Jf & Hinf & Hmin & Hfst).
        exists i, w. split; [by apply lookup_app_l_Some|].
        split; [done|]. split; [done|]. split.
        + intros k g wk [Hk|[_ Hk]]%lookup_app_Some Jg; [by eapply Hmin|].
          apply list_lookup_singleton_Some in Hk as [_ <-]. congruence.
        + intros k g wk Hlt [Hk|[_ Hk]]%lookup_app_Some Jg; [by eapply Hfst|].
          apply list_lookup_singleton_Some in Hk as [_ <-]. congruence.
      - intros k g wk [Hk|[_ Hk]]%lookup_app_Some Jg; [by eapply IH|].
        apply list_lookup_singleton_Some in Hk as [_ <-]. congruence. }
  destruct (foldl (keepLower h j) None l) as [f|]; simpl.
  - destruct IH as (i & w & Hi & Jf & Hinf & Hmin & Hfst). rewrite Jf.
    pose proof (lookup_lt_Some _ _ _ Hi) as Hilt.
    destruct (y wa <? y w)%float eqn:Hlt.
    + exists (length l), wa. split; [by rewrite list_lookup_middle|].
      split; [done|]. split; [by eapply ltb_Infinity|]. split.
      * intros k g wk [Hk|[_ Hk]]%lookup_app_Some Jg.
        -- apply bool_false_of_not. intros Hc.
           pose proof (ltb_trans _ _ _ Hc Hlt) as Hc'.
           rewrite (Hmin k g wk Hk Jg) in Hc'. done.
        -- apply list_lookup_singleton_Some in Hk as [_ <-].
           simplify_eq. apply ltb_irrefl.
      * intros k g wk Hk [Hg|[Hge _]]%lookup_app_Some Jg; [|lia].
        apply bool_false_of_not. intros Hc.
        pose proof (leb_ltb_trans _ _ _ Hc Hlt) as Hc'.
        rewrite (Hmin k g wk Hg Jg) in Hc'. done.
    + exists i, w. split; [by apply lookup_app_l_Some|].
      split; [done|]. split; [done|]. split.
      * intros k g wk [Hk|[_ Hk]]%lookup_app_Some Jg; [by eapply Hmin|].
        apply list_lookup_singleton_Some in Hk as [_ <-]. by simplify_eq.
      * intros k g wk Hk [Hg|[Hge _]]%lookup_app_Some Jg; [by eapply Hfst|lia].
  - destruct (y wa <? Infinity)%float eqn:Hlt.
    + exists (length l), wa. split; [by rewrite list_lookup_middle|].
      split; [done|]. split; [done|]. split.
      * intros k g wk [Hk|[_ Hk]]%lookup_app_Some Jg.
        -- apply bool_false_of_not. intros Hc.
           pose proof (ltb_Infinity _ _ Hc) as Hc'.
           rewrite (IH k g wk Hk Jg) in Hc'. done.
        -- apply list_lookup_singleton_Some in Hk as [_ <-].
           simplify_eq. apply ltb_irrefl.
      * intros k g wk Hk [Hg|[Hge _]]%lookup_app_Some Jg; [|lia].
        apply bool_false_of_not. intros Hc.
        pose proof (leb_ltb_trans _ _ _ Hc Hlt) as Hc'.
        rewrite (IH k g wk Hg Jg) in Hc'. done.
    + intros k g wk [Hk|[_ Hk]]%lookup_app_Some Jg; [by eapply IH|].
      apply list_lookup_singleton_Some in Hk as [_ <-]. by simplify_eq.
Qed.

(** The branch of [extremeY] that stands for a TypeError is dead: the
    frame a scan holds always has the joint. *)
Lemma keepLower_joint j l f :
  foldl (keepLower h j) None l = Some f → is_Some (joint h j f).
Proof.
  intros Hf. pose proof (scan_spec j l) as Hs. rewrite Hf in Hs.
  destruct Hs as (i & w & _ & Jf & _). by exists w.
Qed.

(** The toss peak is read at the position [indexOf] gives back, also
    when the buffer stores a frame object more than once. *)
Lemma tossPeak_position poseData f :
  tossPeakFrame h poseData = Some f →
  ∃ (i : nat) w, tossPeakIndex h poseData = Z.of_nat i ∧
                 lowestFirst h LEFT_WRIST poseData i f w.
Proof.
  intros Hf. pose proof (scan_spec LEFT_WRIST poseData) as Hs.
  unfold tossPeakFrame in Hf. rewrite Hf in Hs.
  destruct Hs as (i & w & Hlow). exists i, w. split; [|done].
  destruct Hlow as (Hi & Jf & Hinf & Hmin & Hfst).
  unfold tossPeakIndex, tossPeakFrame. rewrite Hf. simpl.
  destruct (indexOf_elem poseData f) as (n & -> & Hn & Hfirst).
  { by eapply list_elem_of_lookup_2. }
  f_equal. destruct (Nat.lt_trichotomy n i) as [Hlt|[->|Hgt]]; [|done|].
  - pose proof (Hfst n f w Hlt Hn Jf) as Hc.
    rewrite (ltb_leb_refl _ _ Hinf) in Hc. done.
  - by destruct (Hfirst i Hgt).
Qed.

(** *** The trophy scan *)

Lemma firstTrophy_spec l :
  match firstTrophy h l with
  | Some f => ∃ i : nat, l !! i = Some f ∧ isTrophyPose h f = true ∧
                ∀ k g, (k < i)%nat → l !! k = Some g → isTrophyPose h g = false
  | None => ∀ k g, l !! k = Some g → isTrophyPose h g = false
  end.
Proof.
  induction l as [|a l IH]; simpl; [by intros [|?]|].
  destruct (isTrophyPose h a) eqn:Ha.
  - exists 0%nat. split; [done|]. split; [done|]. intros k g Hk. lia.
  - destruct (firstTrophy h l) as [f|].
    + destruct IH as (i & Hi & Hf & Hbefore). exists (S i).
      split; [done|]. split; [done|].
      intros [|k] g Hk Hg; simpl in Hg; [by simplify_eq|].
      apply (Hbefore k); [lia|done].
    + intros [|k] g Hg; simpl in Hg; [by simplify_eq|]. by eapply IH.
Qed.

Lemma isTrophyPose_spec f : isTrophyPose h f = true ↔ TrophyCondition h f.
Proof.
  unfold isTrophyPose, TrophyCondition, elbowAngleDeg, angleBetweenDeg,
    vectorLength, gtb. split.
  - destruct (joint h RIGHT_SHOULDER f) as [s|]; [|done].
    destruct (joint h RIGHT_ELBOW f) as [e|]; [|done].
    destruct (joint h RIGHT_WRIST f) as [w|]; [|done]. cbv zeta.
    destruct (Math_sqrt (Math_pow (x w - x e) 2 + Math_pow (y w - y e) 2) =? 0)%float
      eqn:H1; [done|].
    destruct (Math_sqrt (Math_pow (x s - x e) 2 + Math_pow (y s - y e) 2) =? 0)%float
      eqn:H2; [done|].
    simpl. intros [[H3 H4]%andb_prop H5]%andb_prop. by exists s, e, w.
  - intros (s & e & w & Hs & He & Hw & H1 & H2 & H3 & H4 & H5).
    rewrite Hs, He, Hw. cbv zeta. rewrite H1, H2. simpl. by rewrite H3, H4, H5.
Qed.

Lemma isTrophyPose_not f : isTrophyPose h f = false ↔ ¬ TrophyCondition h f.
Proof.
  rewrite <- isTrophyPose_spec. destruct (isTrophyPose h f); split; try done.
Qed.

(** A frame whose upper arm or forearm has length zero is passed over. *)
Lemma degenerate_skipped rShoulder rElbow rWrist :
  (Math_sqrt (Math_pow (x rWrist - x rElbow) 2 + Math_pow (y rWrist - y rElbow) 2) =? 0)%float = true ∨
  (Math_sqrt (Math_pow (x rShoulder - x rElbow) 2 + Math_pow (y rShoulder - y rElbow) 2) =? 0)%float = true →
  elbowAngleDeg rShoulder rElbow rWrist = None.
Proof. unfold elbowAngleDeg. intros [-> | ->]; [done|]. by rewrite orb_true_r. Qed.

Lemma lookup_framesFrom (n : nat) (l : PoseData) (i : nat) :
  framesFrom (Z.of_nat n) l !! i = l !! (n + i)%nat.
Proof. unfold framesFrom. rewrite Nat2Z.id. apply lookup_drop. Qed.

(** Where the trophy frame is found, and where [indexOf] puts it. *)
Lemma trophyPose_position poseData f :
  trophyPoseFrame h poseData = Some f →
  ∃ p i n : nat,
    tossPeakIndex h poseData = Z.of_nat p ∧ (p ≤ i)%nat ∧
    poseData !! i = Some f ∧ isTrophyPose h f = true ∧
    (∀ k g, (p ≤ k < i)%nat → poseData !! k = Some g → isTrophyPose h g = false) ∧
    trophyPoseIndex h poseData = Z.of_nat n ∧ (n ≤ i)%nat ∧
    poseData !! n = Some f.
Proof.
  intros Hf. unfold trophyPoseIndex. rewrite Hf. simpl.
  unfold trophyPoseFrame in Hf. simpl in Hf.
  destruct (tossPeakFrame h poseData) as [tp|] eqn:Htp.
  2:{ unfold tossPeakIndex in Hf. rewrite Htp in Hf. done. }
  destruct (tossPeak_position _ _ Htp) as (p & w & Hp & _).
  rewrite Hp in Hf. destruct (Z.eqb_spec (Z.of_nat p) (-1)) as [?|_]; [lia|].
  pose proof (firstTrophy_spec (framesFrom (Z.of_nat p) poseData)) as Hs.
  rewrite Hf in Hs. destruct Hs as (i & Hi & Hyes & Hbefore).
  rewrite lookup_framesFrom in Hi.
  destruct (indexOf_elem poseData f) as (n & Hn & Hnf & Hfirst).
  { by eapply list_elem_of_lookup_2. }
  exists p, (p + i)%nat, n. split; [done|]. split; [lia|].
  split; [done|]. split; [done|]. split.
  - intros k g Hk Hg. apply (Hbefore (k - p)%nat g); [lia|].
    rewrite lookup_framesFrom. by replace (p + (k - p))%nat with k by lia.
  - split; [done|]. split; [|done].
    destruct (decide (n ≤ p + i)%nat); [done|].
    destruct (Hfirst (p + i)%nat); [lia|done].
Qed.

(** Where the contact frame is found. *)
Lemma contactPoint_position poseData f :
  trophyPoseFrame h poseData = Some f →
  ∃ (n i : nat) c w,
    trophyPoseIndex h poseData = Z.of_nat n ∧
    contactPointFrame h poseData = Some c ∧
    lowestFirst h RIGHT_WRIST (framesFrom (Z.of_nat n) poseData) i c w.
Proof.
  intros Hf.
  destruct (trophyPose_position _ _ Hf)
    as (p & i & n & _ & _ & _ & Hyes & _ & Hn & _ & Hnf).
  unfold contactPointFrame. simpl. rewrite Hn.
  destruct (Z.eqb_spec (Z.of_nat n) (-1)) as [?|_]; [lia|].
  pose proof (scan_spec RIGHT_WRIST (framesFrom (Z.of_nat n) poseData)) as Hs.
  destruct (foldl _ _ _) as [c|].
  - destruct Hs as (j & w & Hlow). by exists n, j, c, w.
  - apply isTrophyPose_spec in Hyes
      as (rs & re & rw & _ & _ & Jw & _ & _ & _ & _ & Hy).
    assert (framesFrom (Z.of_nat n) poseData !! 0%nat = Some f) as H0.
    { rewrite lookup_framesFrom. by rewrite Nat.add_0_r. }
    pose proof (Hs 0%nat f rw H0 Jw) as Hc.
    rewrite (ltb_Infinity _ _ Hy) in Hc. done.
Qed.

(** [indexOf] puts the trophy frame at its first position in the buffer. *)
Lemma trophyIndex_first poseData f :
  trophyPoseFrame h poseData = Some f →
  ∃ n : nat, trophyPoseIndex h poseData = Z.of_nat n ∧ poseData !! n = Some f ∧
             ∀ k, (k < n)%nat → poseData !! k ≠ Some f.
Proof.
  intros Hf. destruct (trophyPose_position _ _ Hf) as (p & i & n & _ & _ & Hi & _).
  unfold trophyPoseIndex. rewrite Hf. simpl. apply indexOf_elem.
  by eapply list_elem_of_lookup_2.
Qed.

(** The first frame to reach the lowest [y] is determined by the readings:
    there is one such position at most. *)
Lemma lowestFirst_unique j l i f w i' f' w' :
  lowestFirst h j l i f w → lowestFirst h j l i' f' w' → i = i'.
Proof.
  intros (Hi & Jf & Hinf & Hmin & Hfst) (Hi' & Jf' & Hinf' & Hmin' & Hfst').
  destruct (Nat.lt_trichotomy i i') as [Hlt|[->|Hgt]]; [|done|]; exfalso.
  - pose proof (Hfst' i f w Hlt Hi Jf) as Hc.
    by rewrite (not_ltb_leb _ _ Hinf Hinf' (Hmin i' f' w' Hi' Jf')) in Hc.
  - pose proof (Hfst i' f' w' Hgt Hi' Jf') as Hc.
    by rewrite (not_ltb_leb _ _ Hinf' Hinf (Hmin' i f w Hi Jf)) in Hc.
Qed.

End ExtractorFacts.

(** ** The extractor's claims *)


Section ExtractorClaims.
Context {M : JSMath}.
Variable h : Heap.

Lemma long_buffer (poseData : PoseData) :
  (10 ≤ length poseData)%nat → (Z.of_nat (length poseData) <? 10) = false.
Proof. intros Hlen. apply Z.ltb_ge. lia. Qed.

(** C1, as the code has it: in a buffer of at least 10 frames in which a
    Trophy Pose was found, [indexOf] puts the Trophy Pose frame at its
    (first) position [n] in the buffer, and the Contact Point is the time of
    the frame at a position [i] from [n] on whose right wrist has a [y]
    below [Infinity] such that no frame from [n] to the end has a strictly
    smaller right-wrist [y] and every frame from [n] up to [i] is strictly
    larger (or not a number): ties go to the FIRST frame reaching the
    minimum. *)
Theorem contact_point_first_minimum (poseData : PoseData) (duration : float) :
  (10 ≤ length poseData)%nat →
  let r := analyzeKinematics h poseData duration in
  is_Some (TrophyPose r) →
  ∃ (n i : nat) tf f w,
    TrophyPose r = Some (time (h tf)) ∧ TrophyCondition h tf ∧
    trophyPoseIndex h poseData = Z.of_nat n ∧ poseData !! n = Some tf ∧
    (∀ k : nat, (k < n)%nat → poseData !! k ≠ Some tf) ∧
    (n ≤ i)%nat ∧ poseData !! i = Some f ∧ joint h RIGHT_WRIST f = Some w ∧
    (y w <? Infinity)%float = true ∧
    ContactPoint r = Some (time (h f)) ∧
    (∀ (k : nat) g wk,
       (n ≤ k)%nat → poseData !! k = Some g → joint h RIGHT_WRIST g = Some wk →
       (y wk <? y w)%float = false) ∧
    (∀ (k : nat) g wk,
       (n ≤ k < i)%nat → poseData !! k = Some g → joint h RIGHT_WRIST g = Some wk →
       (y wk <=? y w)%float = false).
Proof.
  intros Hlen r. subst r. unfold analyzeKinematics.
  rewrite long_buffer by done. simpl.
  destruct (trophyPoseFrame h poseData) as [tf|] eqn:Htf; [|by intros []].
  intros _.
  destruct (trophyPose_position h _ _ Htf) as (_ & _ & _ & _ & _ & _ & Hyes & _).
  destruct (trophyIndex_first h _ _ Htf) as (n & Hn & Hnf & Hfirst).
  destruct (contactPoint_position h _ _ Htf)
    as (n' & j & c & w & Hn' & Hc & Hj & Jc & Hinf & Hmin & Hfst).
  assert (n' = n) as -> by lia.
  rewrite lookup_framesFrom in Hj.
  exists n, (n + j)%nat, tf, c, w. rewrite Hc. simpl.
  split; [done|]. split; [by apply isTrophyPose_spec|].
  split; [done|]. split; [done|]. split; [done|]. split; [lia|].
  split; [done|]. split; [done|]. split; [done|]. split; [done|]. split.
  - intros k g wk Hk Hg Jg. apply (Hmin (k - n)%nat g wk); [|done].
    rewrite lookup_framesFrom. by replace (n + (k - n))%nat with k by lia.
  - intros k g wk Hk Hg Jg. apply (Hfst (k - n)%nat g wk); [lia| |done].
    rewrite lookup_framesFrom. by replace (n + (k - n))%nat with k by lia.
Qed.

(** C6: a buffer of fewer than 10 frames gives Toss Peak, Trophy Pose and
    Contact Point absent, and Serve Start the first frame's time, or 0 for
    the empty buffer; whatever the duration. *)
Theorem short_buffer_degenerate (poseData : PoseData) (duration : float) :
  (length poseData < 10)%nat →
  let r := analyzeKinematics h poseData duration in
  ServeStart r = Some (from_option (fun f => time (h f)) 0%float (poseData !! 0%nat)) ∧
  TossPeak r = None ∧ TrophyPose r = None ∧ ContactPoint r = None.
Proof.
  intros Hlen. unfold analyzeKinematics.
  replace (Z.of_nat (length poseData) <? 10) with true
    by (symmetry; apply Z.ltb_lt; lia).
  by destruct poseData.
Qed.

(** C7: in a buffer of at least 10 frames with a Toss Peak, [indexOf] puts
    the Toss Peak frame at the position [p] where the left wrist is first
    lowest, and the Trophy Pose is the time of the first frame at a position
    from [p] on that meets the trophy condition: right shoulder, elbow and
    wrist present, neither the vector elbow-to-wrist nor the vector
    elbow-to-shoulder of length zero, the angle between them (dot product,
    arccos, in degrees) strictly between 80 and 130, and the wrist's [y]
    less than the elbow's.  The Trophy Pose is absent when no frame from [p]
    on meets the condition, and when there is no Toss Peak. *)
Theorem trophy_pose_first_match (poseData : PoseData) (duration : float) :
  (10 ≤ length poseData)%nat →
  let r := analyzeKinematics h poseData duration in
  (TossPeak r = None → TrophyPose r = None) ∧
  (is_Some (TossPeak r) →
   ∃ (p : nat) a w,
     TossPeak r = Some (time (h a)) ∧
     tossPeakIndex h poseData = Z.of_nat p ∧
     lowestFirst h LEFT_WRIST poseData p a w ∧
     ((∃ (i : nat) f,
         (p ≤ i)%nat ∧ poseData !! i = Some f ∧ TrophyCondition h f ∧
         (∀ (k : nat) g, (p ≤ k < i)%nat → poseData !! k = Some g →
                         ¬ TrophyCondition h g) ∧
         TrophyPose r = Some (time (h f)))
      ∨
      ((∀ (k : nat) g, (p ≤ k)%nat → poseData !! k = Some g →
                       ¬ TrophyCondition h g) ∧
       TrophyPose r = None))).
Proof.
  intros Hlen r. subst r. unfold analyzeKinematics.
  rewrite long_buffer by done. simpl.
  destruct (tossPeakFrame h poseData) as [a|] eqn:Ha; simpl.
  2:{ split; [|by intros []]. intros _.
      unfold trophyPoseFrame, tossPeakIndex. by rewrite Ha. }
  split; [done|]. intros _.
  destruct (tossPeak_position h _ _ Ha) as (p & w & Hp & Hlow).
  exists p, a, w. split; [done|]. split; [done|]. split; [done|].
  destruct (trophyPoseFrame h poseData) as [f|] eqn:Hf; simpl; [left|right].
  - destruct (trophyPose_position h _ _ Hf)
      as (p' & i & n & Hp' & Hpi & Hi & Hyes & Hbefore & _).
    assert (p' = p) as -> by lia.
    exists i, f. split; [done|]. split; [done|].
    split; [by apply isTrophyPose_spec|]. split; [|done].
    intros k g Hk Hg. apply isTrophyPose_not. by apply (Hbefore k g).
  - split; [|done].
    unfold trophyPoseFrame in Hf. simpl in Hf. rewrite Hp in Hf.
    destruct (Z.eqb_spec (Z.of_nat p) (-1)) as [?|_]; [lia|].
    pose proof (firstTrophy_spec h (framesFrom (Z.of_nat p) poseData)) as Hs.
    rewrite Hf in Hs. intros k g Hk Hg. apply isTrophyPose_not.
    apply (Hs (k - p)%nat g). rewrite lookup_framesFrom.
    by replace (p + (k - p))%nat with k by lia.
Qed.

(** C8: a pose buffer is an array of distinct frame objects (the
    collection loop pushes a new object for every frame).  Whenever Toss
    Peak, Trophy Pose and Contact Point are all present, they are the times
    of the frames at three positions [p <= i <= j] of the buffer, which are
    the indices [indexOf] gives for them; the frame at [p] is the first to
    reach the lowest left-wrist [y] and the frame at [i] meets the trophy
    condition. *)
Theorem key_moments_monotone (poseData : PoseData) (duration : float) :
  NoDup poseData →
  let r := analyzeKinematics h poseData duration in
  is_Some (TossPeak r) → is_Some (TrophyPose r) → is_Some (ContactPoint r) →
  ∃ (p i j : nat) a tf c w,
    lowestFirst h LEFT_WRIST poseData p a w ∧
    TossPeak r = Some (time (h a)) ∧ tossPeakIndex h poseData = Z.of_nat p ∧
    poseData !! i = Some tf ∧ TrophyCondition h tf ∧
    TrophyPose r = Some (time (h tf)) ∧ trophyPoseIndex h poseData = Z.of_nat i ∧
    poseData !! j = Some c ∧
    ContactPoint r = Some (time (h c)) ∧ contactPointIndex h poseData = Z.of_nat j ∧
    (p ≤ i)%nat ∧ (i ≤ j)%nat.
Proof.
  intros Hnd r. subst r. unfold analyzeKinematics.
  destruct (Z.of_nat (length poseData) <? 10); simpl; [by intros []|].
  intros _ [t Ht] _.
  destruct (trophyPoseFrame h poseData) as [f|] eqn:Hf; [|done].
  destruct (trophyPose_position h _ _ Hf)
    as (p & i & n & Hp & Hpi & Hi & Hyes & _ & Hn & _ & Hnf).
  destruct (contactPoint_position h _ _ Hf)
    as (n' & j & c & w & Hn' & Hc & Hj & _).
  rewrite lookup_framesFrom in Hj.
  assert (n = i) as -> by (by eapply NoDup_lookup).
  assert (n' = i) as -> by lia.
  destruct (tossPeakFrame h poseData) as [a|] eqn:Ha.
  2:{ unfold trophyPoseFrame, tossPeakIndex in Hf. by rewrite Ha in Hf. }
  destruct (tossPeak_position h _ _ Ha) as (p' & wa & Hp' & Hlow).
  assert (p' = p) as -> by lia.
  exists p, i, (i + j)%nat, a, f, c, wa. rewrite Hc. simpl.
  split; [done|]. split; [done|]. split; [done|]. split; [done|].
  split; [by apply isTrophyPose_spec|]. split; [done|]. split; [done|].
  split; [done|]. split; [done|]. split; [|lia].
  unfold contactPointIndex. rewrite Hc. simpl.
  by rewrite (indexOf_NoDup _ _ _ Hnd Hj).
Qed.

(** C9: the duration argument is never consulted. *)
Theorem duration_irrelevant (poseData : PoseData) (d1 d2 : float) :
  analyzeKinematics h poseData d1 = analyzeKinematics h poseData d2.
Proof. reflexivity. Qed.

(** C10: a result with a Trophy Pose has a Contact Point: the contact scan
    starts on the trophy frame, whose right wrist is below [Infinity]. *)
Theorem trophy_implies_contact (poseData : PoseData) (duration : float) :
  let r := analyzeKinematics h poseData duration in
  is_Some (TrophyPose r) → is_Some (ContactPoint r).
Proof.
  intros r. subst r. unfold analyzeKinematics.
  destruct (Z.of_nat (length poseData) <? 10); simpl; [by intros []|].
  intros [t Ht].
  destruct (trophyPoseFrame h poseData) as [f|] eqn:Hf; [|done].
  destruct (contactPoint_position h _ _ Hf) as (n & j & c & w & _ & -> & _).
  by eexists.
Qed.

End ExtractorClaims.

(** *** The claims on the sample buffers *)

(** The 15-frame serve gives Toss Peak at frame 5, Trophy Pose at frame 8
    and Contact Point at frame 12. *)
Example serve15_key_moments :
  analyzeKinematics (heapOf serve15) (refsOf serve15) 15%float =
    {| ServeStart := Some 0%float; TossPeak := Some 5%float;
       TrophyPose := Some 8%float; ContactPoint := Some 12%float |}.
Proof. vm_compute. reflexivity. Qed.

(** The collection loop hands over a buffer of distinct frame objects. *)
Lemma refsOf_NoDup (frames : list LandmarkFrame) : NoDup (refsOf frames).
Proof. apply NoDup_seq. Qed.

Lemma contact_point_first_minimum_witness :
  let h := heapOf serve15 in
  let buf := refsOf serve15 in
  let r := analyzeKinematics h buf 15%float in
  (10 ≤ length buf)%nat ∧ is_Some (TrophyPose r) ∧
  TrophyPose r = Some 8%float ∧ ContactPoint r = Some 12%float ∧
  ∃ (n i : nat) tf f w,
    TrophyPose r = Some (time (h tf)) ∧ TrophyCondition h tf ∧
    trophyPoseIndex h buf = Z.of_nat n ∧ buf !! n = Some tf ∧
    (∀ k : nat, (k < n)%nat → buf !! k ≠ Some tf) ∧
    (n ≤ i)%nat ∧ buf !! i = Some f ∧ joint h RIGHT_WRIST f = Some w ∧
    (y w <? Infinity)%float = true ∧
    ContactPoint r = Some (time (h f)) ∧
    (∀ (k : nat) g wk,
       (n ≤ k)%nat → buf !! k = Some g → joint h RIGHT_WRIST g = Some wk →
       (y wk <? y w)%float = false) ∧
    (∀ (k : nat) g wk,
       (n ≤ k < i)%nat → buf !! k = Some g → joint h RIGHT_WRIST g = Some wk →
       (y wk <=? y w)%float = false).
Proof.
  assert (10 ≤ length (refsOf serve15))%nat as Hlen by (vm_compute; lia).
  assert (is_Some (TrophyPose
            (analyzeKinematics (heapOf serve15) (refsOf serve15) 15%float))) as Htr
    by (vm_compute; eexists; reflexivity).
  split; [exact Hlen|]. split; [exact Htr|].
  split; [vm_compute; reflexivity|]. split; [vm_compute; reflexivity|].
  exact (contact_point_first_minimum (heapOf serve15) (refsOf serve15) 15%float Hlen Htr).
Defined.

(** C1 as stated fails: ten frames held in the trophy position all reach
    the same right-wrist [y]; the last one (time 9) is what a "new minimum
    or equal" comparison keeps, the extractor returns the first (time 0). *)
Lemma contact_point_last_tie_counterexample :
  let h := heapOf held10 in
  let buf := refsOf held10 in
  (10 ≤ length buf)%nat ∧ is_Some (trophyPoseFrame h buf) ∧
  trophyPoseIndex h buf = 0 ∧
  (y <$> joint h RIGHT_WRIST 9%nat) = (y <$> joint h RIGHT_WRIST 0%nat) ∧
  frameTime h (contactPointFrame_lastTie h buf) = Some 9%float ∧
  ContactPoint (analyzeKinematics h buf 10%float) = Some 0%float ∧
  (0 =? 9)%float = false.
Proof.
  vm_compute. repeat split; try reflexivity; try lia. eexists; reflexivity.
Qed.

Lemma short_buffer_degenerate_witness :
  let h := heapOf serve15 in
  let buf := take 3 (refsOf serve15) in
  (length buf < 10)%nat ∧
  let r := analyzeKinematics h buf 15%float in
  ServeStart r = Some (from_option (fun f => time (h f)) 0%float (buf !! 0%nat)) ∧
  TossPeak r = None ∧ TrophyPose r = None ∧ ContactPoint r = None.
Proof.
  assert (length (take 3 (refsOf serve15)) < 10)%nat as Hlen by (vm_compute; lia).
  split; [exact Hlen|].
  exact (short_buffer_degenerate (heapOf serve15) (take 3 (refsOf serve15)) 15%float Hlen).
Defined.

Lemma trophy_pose_first_match_witness :
  let h := heapOf serve15 in
  let buf := refsOf serve15 in
  let r := analyzeKinematics h buf 15%float in
  (10 ≤ length buf)%nat ∧
  TossPeak r = Some 5%float ∧ TrophyPose r = Some 8%float ∧
  ∃ (p : nat) a w,
    TossPeak r = Some (time (h a)) ∧
    tossPeakIndex h buf = Z.of_nat p ∧
    lowestFirst h LEFT_WRIST buf p a w ∧
    ∃ (i : nat) f,
      (p ≤ i)%nat ∧ buf !! i = Some f ∧ TrophyCondition h f ∧
      (∀ (k : nat) g, (p ≤ k < i)%nat → buf !! k = Some g →
                      ¬ TrophyCondition h g) ∧
      TrophyPose r = Some (time (h f)).
Proof.
  assert (10 ≤ length (refsOf serve15))%nat as Hlen by (vm_compute; lia).
  split; [exact Hlen|].
  split; [vm_compute; reflexivity|]. split; [vm_compute; reflexivity|].
  destruct (trophy_pose_first_match (heapOf serve15) (refsOf serve15) 15%float Hlen)
    as [_ Hfound].
  destruct Hfound as (p & a & w & Ht & Hp & Hlow & [Hyes|[_ Hnone]]).
  - vm_compute. eexists. reflexivity.
  - exists p, a, w. split; [exact Ht|]. split; [exact Hp|]. split; [exact Hlow|].
    exact Hyes.
  - vm_compute in Hnone. discriminate Hnone.
Defined.

Lemma key_moments_monotone_witness :
  let h := heapOf serve15 in
  let buf := refsOf serve15 in
  let r := analyzeKinematics h buf 15%float in
  NoDup buf ∧
  is_Some (TossPeak r) ∧ is_Some (TrophyPose r) ∧ is_Some (ContactPoint r) ∧
  tossPeakIndex h buf = 5 ∧ trophyPoseIndex h buf = 8 ∧ contactPointIndex h buf = 12 ∧
  ∃ (p i j : nat) a tf c w,
    lowestFirst h LEFT_WRIST buf p a w ∧
    TossPeak r = Some (time (h a)) ∧ tossPeakIndex h buf = Z.of_nat p ∧
    buf !! i = Some tf ∧ TrophyCondition h tf ∧
    TrophyPose r = Some (time (h tf)) ∧ trophyPoseIndex h buf = Z.of_nat i ∧
    buf !! j = Some c ∧
    ContactPoint r = Some (time (h c)) ∧ contactPointIndex h buf = Z.of_nat j ∧
    (p ≤ i)%nat ∧ (i ≤ j)%nat.
Proof.
  pose proof (refsOf_NoDup serve15) as Hnd.
  assert (is_Some (TossPeak (analyzeKinematics (heapOf serve15) (refsOf serve15) 15%float)))
    as H1 by (vm_compute; eexists; reflexivity).
  assert (is_Some (TrophyPose (analyzeKinematics (heapOf serve15) (refsOf serve15) 15%float)))
    as H2 by (vm_compute; eexists; reflexivity).
  assert (is_Some (ContactPoint (analyzeKinematics (heapOf serve15) (refsOf serve15) 15%float)))
    as H3 by (vm_compute; eexists; reflexivity).
  split; [exact Hnd|]. split; [exact H1|]. split; [exact H2|]. split; [exact H3|].
  split; [vm_compute; reflexivity|]. split; [vm_compute; reflexivity|].
  split; [vm_compute; reflexivity|].
  exact (key_moments_monotone (heapOf serve15) (refsOf serve15) 15%float Hnd H1 H2 H3).
Defined.

(** Why the buffer must hold distinct frame objects: [indexOf] compares
    references and returns the first occurrence.  In a hand-made array that
    stores one frame object twice, the trophy frame (object 0) is found at
    position 3, after the toss peak at position 2, but [indexOf] puts it at
    position 0, and the contact scan that starts there stops at position 1.
    The collection loop never builds such an array. *)
Lemma shared_frame_indices :
  let r := analyzeKinematics sharedHeap sharedBuffer 1%float in
  is_Some (TossPeak r) ∧ is_Some (TrophyPose r) ∧ is_Some (ContactPoint r) ∧
  tossPeakFrame sharedHeap sharedBuffer = Some 2%nat ∧
  trophyPoseFrame sharedHeap sharedBuffer = Some 0%nat ∧
  contactPointFrame sharedHeap sharedBuffer = Some 1%nat ∧
  tossPeakIndex sharedHeap sharedBuffer = 2 ∧
  trophyPoseIndex sharedHeap sharedBuffer = 0 ∧
  contactPointIndex sharedHeap sharedBuffer = 1 ∧
  (∀ k : nat, sharedBuffer !! k = Some 2%nat → k = 2%nat) ∧
  (∀ k : nat, sharedBuffer !! k = Some 1%nat → k = 1%nat).
Proof.
  vm_compute.
  repeat split; try reflexivity; try (eexists; reflexivity);
    intros k Hk; do 10 (destruct k as [|k]; [congruence|]); done.
Qed.

Lemma trophy_implies_contact_witness :
  let r := analyzeKinematics (heapOf serve15) (refsOf serve15) 15%float in
  is_Some (TrophyPose r) ∧ is_Some (ContactPoint r).
Proof.
  assert (is_Some (TrophyPose (analyzeKinematics (heapOf serve15) (refsOf serve15) 15%float)))
    as H2 by (vm_compute; eexists; reflexivity).
  split; [exact H2|].
  exact (trophy_implies_contact (heapOf serve15) (refsOf serve15) 15%float H2).
Defined.

(** ** Facts about the gesture detector *)

Section DetectorFacts.
Context {M : JSMath}.

Lemma reportState_spec newState d :
  reportState newState d =
    {| lastWristPos := lastWristPos d;
       stillFrameCount := stillFrameCount d;
       lastReportedState := newState;
       onStateChange :=
         onStateChange d ++ (if decide (newState = lastReportedState d) then [] else [newState]);
       scheduled := scheduled d |}.
Proof.
  unfold reportState. destruct d as [p c s calls b]; simpl.
  case_decide; [subst; by rewrite app_nil_r|done].
Qed.

Lemma idle_step d results :
  raisedWrist results = None →
  detectLoop d results =
    {| lastWristPos := None;
       stillFrameCount := 0;
       lastReportedState := idle;
       onStateChange :=
         onStateChange d ++ (if decide (idle = lastReportedState d) then [] else [idle]);
       scheduled := true |}.
Proof. intros Hr. unfold detectLoop. rewrite Hr, reportState_spec. done. Qed.


Lemma still_step p count calls results :
  stillAt p results = true → count + 1 < STILL_FRAMES_REQUIRED →
  detectLoop (tracking p count calls) results = tracking p (count + 1) calls.
Proof.
  unfold stillAt, detectLoop. intros Hs Hc.
  destruct (raisedWrist results) as [w|]; [|done]. simpl. rewrite Hs. simpl.
  destruct (Z.leb_spec STILL_FRAMES_REQUIRED (count + 1)); [lia|done].
Qed.

Lemma still_lock p count calls results :
  stillAt p results = true → STILL_FRAMES_REQUIRED ≤ count + 1 →
  detectLoop (tracking p count calls) results =
    {| lastWristPos := Some p;
       stillFrameCount := count + 1;
       lastReportedState := locked;
       onStateChange := calls ++ [locked];
       scheduled := false |}.
Proof.
  unfold stillAt, detectLoop. intros Hs Hc.
  destruct (raisedWrist results) as [w|]; [|done]. simpl. rewrite Hs. simpl.
  destruct (Z.leb_spec STILL_FRAMES_REQUIRED (count + 1)); [done|lia].
Qed.



Lemma run_stopped d ticks : scheduled d = false → runDetector d ticks = d.
Proof. intros Hs. destruct ticks; simpl; [done|]. by rewrite Hs. Qed.

Lemma run_app d ticks more :
  runDetector d (ticks ++ more) = runDetector (runDetector d ticks) more.
Proof.
  revert d. induction ticks as [|t ticks IH]; intros d; simpl; [done|].
  destruct (scheduled d) eqn:Hs; [apply IH|]. by rewrite run_stopped.
Qed.

(** One tick either keeps the loop scheduled and reports no [locked], or
    stops it with [locked] as its last report. *)
Lemma detectLoop_cases d results :
  ∃ extra,
    (locked ∉ extra) ∧
    ((scheduled (detectLoop d results) = true ∧
      onStateChange (detectLoop d results) = onStateChange d ++ extra) ∨
     (scheduled (detectLoop d results) = false ∧
      onStateChange (detectLoop d results) = onStateChange d ++ extra ++ [locked])).
Proof.
  destruct (raisedWrist results) as [w|] eqn:Hr.
  2:{ rewrite idle_step by done. simpl. eexists. split; [|left; done].
      case_decide; [apply not_elem_of_nil|by apply not_elem_of_cons; split; [|apply not_elem_of_nil]]. }
  unfold detectLoop. rewrite Hr. rewrite (reportState_spec detecting). simpl.
  set (extra := if decide (detecting = lastReportedState d) then [] else [detecting]).
  assert (locked ∉ extra) as Hex.
  { unfold extra. case_decide; [apply not_elem_of_nil|].
    by apply not_elem_of_cons; split; [|apply not_elem_of_nil]. }
  exists extra. split; [done|].
  destruct (lastWristPos d) as [p|]; [destruct (distance w p <? _)%float|]; simpl.
  - destruct (STILL_FRAMES_REQUIRED <=? stillFrameCount d + 1); simpl; [right|left];
      rewrite ?reportState_spec; simpl; by rewrite <- ?app_assoc.
  - left; done.
  - left; done.
Qed.

(** The loop asks for another frame exactly when the counter is short of
    the required count. *)
Lemma detectLoop_scheduled d results :
  scheduled (detectLoop d results) =
    negb (STILL_FRAMES_REQUIRED <=? stillFrameCount (detectLoop d results)).
Proof.
  unfold detectLoop.
  match goal with
  | |- context [setScheduled false (reportState locked ?d1)] =>
      generalize d1; intros d1'
  end.
  destruct (STILL_FRAMES_REQUIRED <=? stillFrameCount d1') eqn:Hc;
    rewrite ?reportState_spec; cbn [setScheduled scheduled stillFrameCount];
    by rewrite Hc.
Qed.

Lemma run_scheduled ticks :
  scheduled (runDetector initDetector ticks) =
    negb (STILL_FRAMES_REQUIRED <=? stillFrameCount (runDetector initDetector ticks)).
Proof.
  induction ticks as [|t ticks IH] using rev_ind; [done|].
  rewrite run_app. simpl.
  destruct (scheduled (runDetector initDetector ticks)) eqn:Hs; [|by rewrite <- IH].
  apply detectLoop_scheduled.
Qed.

Lemma lockedReports_app a b :
  lockedReports (a ++ b) = (lockedReports a + lockedReports b)%nat.
Proof. unfold lockedReports. by rewrite filter_app, length_app. Qed.

Lemma lockedReports_none a : locked ∉ a → lockedReports a = 0%nat.
Proof.
  unfold lockedReports. induction a as [|s a IH]; [done|].
  intros Hn. apply not_elem_of_cons in Hn as [Hs Ha].
  rewrite filter_cons_False by done. by apply IH.
Qed.

Lemma run_lockedLast d0 ticks :
  scheduled d0 = true → lockedLast d0 (runDetector d0 ticks).
Proof.
  induction ticks as [|t ticks IH] using rev_ind; intros Hs.
  - exists []. split; [apply not_elem_of_nil|]. left. by rewrite app_nil_r.
  - rewrite run_app. destruct (IH Hs) as (extra & Hex & [[Hsch Hcalls]|[Hsch Hcalls]]).
    + simpl. rewrite Hsch.
      destruct (detectLoop_cases (runDetector d0 ticks) t)
        as (extra' & Hex' & [[Hs' Hc']|[Hs' Hc']]);
        exists (extra ++ extra'); (split; [by apply not_elem_of_app|]); [left|right];
        (split; [done|]); rewrite Hc', Hcalls; by rewrite <- !app_assoc.
    + rewrite run_stopped by done. exists extra. split; [done|]. by right.
Qed.

End DetectorFacts.

(** ** The detector's claims *)

Section DetectorClaims.
Context {M : JSMath}.




(** C5: in one activation [locked] is reported at most once, and last; it
    has been reported exactly when the counter has reached 120, the loop is
    then no longer scheduled and further animation frames change nothing.
    Over several activations there are at most as many [locked] reports as
    activations. *)
Theorem locked_reported_once
    (ticks more : list Detection) (runs : list (list Detection)) :
  let d := runDetector initDetector ticks in
  (lockedReports (onStateChange d) ≤ 1)%nat ∧
  (locked ∈ onStateChange d ↔ scheduled d = false) ∧
  (scheduled d = false ↔ STILL_FRAMES_REQUIRED ≤ stillFrameCount d) ∧
  (scheduled d = false →
   last (onStateChange d) = Some locked ∧ runDetector d more = d) ∧
  (lockedReports (activations runs) ≤ length runs)%nat.
Proof.
  assert (∀ ts, lockedReports (onStateChange (runDetector initDetector ts)) ≤ 1)%nat
    as Honce.
  { intros ts.
    destruct (run_lockedLast initDetector ts eq_refl)
      as (extra & Hex & [[_ ->]|[_ ->]]); simpl;
      rewrite ?lockedReports_app, (lockedReports_none _ Hex); [lia|].
    unfold lockedReports. rewrite filter_cons_True by done. simpl. lia. }
  intros d. split; [apply Honce|]. split; [|split; [|split]].
  - subst d. destruct (run_lockedLast initDetector ticks eq_refl)
      as (extra & Hex & [[Hs Hc]|[Hs Hc]]); rewrite Hs, Hc; simpl.
    + split; [done|discriminate].
    + split; [done|]. intros _. apply elem_of_app. right. apply elem_of_cons. by left.
  - subst d. rewrite run_scheduled.
    destruct (Z.leb_spec STILL_FRAMES_REQUIRED
                (stillFrameCount (runDetector initDetector ticks))); simpl;
      split; first [done|lia].
  - intros Hstop. split; [|by apply run_stopped].
    subst d. destruct (run_lockedLast initDetector ticks eq_refl)
      as (extra & Hex & [[Hs Hc]|[Hs Hc]]); [congruence|].
    rewrite Hc. simpl. by rewrite last_snoc.
  - unfold activations. induction runs as [|r runs IH]; [done|].
    rewrite fmap_cons. simpl. rewrite lockedReports_app.
    pose proof (Honce r). unfold detectSignalInStream at 1. lia.
Qed.

End DetectorClaims.




(** ** The collection loop's claim *)

Section CollectorClaims.

Lemma run_resolved duration c frames :
  resolved c = true → runCollector duration c frames = c.
Proof. intros Hr. destruct frames; simpl; [done|]. by rewrite Hr. Qed.

Lemma run_progress (Q : float → Prop) duration c frames :
  Q 100%float →
  (∀ v, v ∈ frames → Q (currentTime v / duration * 100)%float) →
  Forall Q (setProgress c) →
  Forall Q (setProgress (runCollector duration c frames)).
Proof.
  intros Q100. revert c. induction frames as [|v frames IH]; intros c Hraw Hc; [done|].
  simpl. destruct (resolved c); [done|]. apply IH.
  - intros v' Hv'. apply Hraw. by right.
  - unfold processFrame.
    destruct (paused v || ended v); simpl; [by apply Forall_app; split; [|constructor]|].
    destruct (gtb (currentTime v) (lastTime c)); simpl; [|done].
    apply Forall_app. split; [done|]. constructor; [|done]. apply Hraw. by left.
Qed.

Lemma run_last_100 duration c frames :
  (resolved c = true → last (setProgress c) = Some 100%float) →
  resolved (runCollector duration c frames) = true →
  last (setProgress (runCollector duration c frames)) = Some 100%float.
Proof.
  revert c. induction frames as [|v frames IH]; intros c Hc; simpl; [done|].
  destruct (resolved c) eqn:Hr; [by intros _; apply Hc|]. apply IH.
  unfold processFrame. destruct (paused v || ended v); simpl.
  - intros _. by rewrite last_snoc.
  - destruct (gtb (currentTime v) (lastTime c)); simpl; [done|]. by rewrite Hr.
Qed.

Lemma run_completes duration c frames :
  Exists (fun v => paused v || ended v = true) frames →
  resolved (runCollector duration c frames) = true.
Proof.
  intros Hex. revert c. induction Hex as [v frames Hv|v frames _ IH]; intros c; simpl.
  - destruct (resolved c) eqn:Hr; [done|].
    assert (resolved (processFrame duration c v) = true) as Hp
      by (unfold processFrame; by rewrite Hv).
    by rewrite run_resolved.
  - destruct (resolved c) eqn:Hr; [done|]. apply IH.
Qed.

(** C3, as the code has it: a processed frame reports exactly
    [currentTime / duration * 100], unclamped; every report is that value
    for some frame or the final 100; and when playback has paused or ended
    the loop resolves with 100 as its last report, whatever was detected. *)
Theorem progress_reports (duration : float) (frames : list VideoFrame) :
  let c := processVideoForPose duration frames in
  (∀ c0 v, paused v || ended v = false → gtb (currentTime v) (lastTime c0) = true →
           setProgress (processFrame duration c0 v) =
             setProgress c0 ++ [(currentTime v / duration * 100)%float]) ∧
  Forall (fun p => p = 100%float ∨
                   ∃ v, v ∈ frames ∧ p = (currentTime v / duration * 100)%float)
         (setProgress c) ∧
  (Exists (fun v => paused v || ended v = true) frames → resolved c = true) ∧
  (resolved c = true → last (setProgress c) = Some 100%float).
Proof.
  intros c. subst c. unfold processVideoForPose. split; [|split; [|split]].
  - intros c0 v Hplay Hnew. unfold processFrame. by rewrite Hplay, Hnew.
  - apply run_progress; [by left| |constructor].
    intros v Hv. right. by exists v.
  - apply run_completes.
  - by apply run_last_100.
Qed.

End CollectorClaims.

(** C3 as stated fails: nothing clamps the percentage.  With the playback
    clock slightly past the reported duration the loop reports more than
    100. *)
Lemma progress_unclamped_counterexample :
  let c := processVideoForPose 10%float
             [playing 5 noBody; playing 10.03125 noBody; finished 10.03125] in
  setProgress c = [50; 100.3125; 100]%float ∧
  inPercentRange 100.3125%float = false ∧
  resolved c = true.
Proof. vm_compute. repeat split; reflexivity. Qed.


(** ** More on the extractor *)

Section ExtractorMore.
Context {M : JSMath}.
Variable h : Heap.

Lemma short_or_long (poseData : PoseData) :
  (Z.of_nat (length poseData) <? 10) = true ∨ (10 ≤ length poseData)%nat.
Proof. destruct (Z.ltb_spec (Z.of_nat (length poseData)) 10); [by left|right; lia]. Qed.

(** Where the three frames sit when the trophy frame was found. *)
Lemma found_positions poseData tf :
  trophyPoseFrame h poseData = Some tf →
  ∃ (p i n j : nat) a c,
    tossPeakFrame h poseData = Some a ∧ poseData !! p = Some a ∧
    (p ≤ i)%nat ∧ poseData !! i = Some tf ∧
    (n ≤ i)%nat ∧ poseData !! n = Some tf ∧
    contactPointFrame h poseData = Some c ∧ poseData !! (n + j)%nat = Some c.
Proof.
  intros Hf.
  destruct (trophyPose_position h _ _ Hf)
    as (p & i & n & Hp & Hpi & Hi & _ & _ & Hn & Hni & Hnf).
  destruct (contactPoint_position h _ _ Hf)
    as (n' & j & c & w & Hn' & Hc & Hj & _).
  rewrite lookup_framesFrom in Hj. assert (n' = n) as -> by lia.
  destruct (tossPeakFrame h poseData) as [a|] eqn:Ha.
  2:{ unfold trophyPoseFrame, tossPeakIndex in Hf. by rewrite Ha in Hf. }
  destruct (tossPeak_position h _ _ Ha) as (p' & w' & Hp' & Hlow & _).
  assert (p' = p) as -> by lia.
  by exists p, i, n, j, a, c.
Qed.

Lemma timesIncrease_NoDup (l : PoseData) : timesIncrease h l → NoDup l.
Proof.
  intros Hinc. apply NoDup_alt. intros i j f Hi Hj.
  destruct (Nat.lt_trichotomy i j) as [Hlt|[->|Hgt]]; [|done|].
  - pose proof (Hinc i j f f Hlt Hi Hj) as Hc. by rewrite ltb_irrefl in Hc.
  - pose proof (Hinc j i f f Hgt Hj Hi) as Hc. by rewrite ltb_irrefl in Hc.
Qed.

Lemma times_le (l : PoseData) (i j : nat) f g :
  timesIncrease h l → (2 ≤ length l)%nat → (i ≤ j)%nat →
  l !! i = Some f → l !! j = Some g →
  (time (h f) <=? time (h g))%float = true.
Proof.
  intros Hinc Hlen Hij Hi Hj.
  destruct (decide (i = j)) as [->|Hne].
  - assert (f = g) as <- by congruence.
    destruct j as [|j].
    + destruct (lookup_lt_is_Some_2 l 1%nat) as [g Hg]; [lia|].
      eapply ltb_leb_refl. apply (Hinc 0%nat 1%nat f g); [lia|done..].
    + destruct (lookup_lt_is_Some_2 l 0%nat) as [g Hg]; [lia|].
      eapply ltb_leb_refl_r. apply (Hinc 0%nat (S j) g f); [lia|done..].
  - apply ltb_leb. apply (Hinc i j); [lia|done..].
Qed.

(** The frames the three passes pick, in a buffer with strictly increasing
    times, come in the order of the serve. *)
Lemma frames_in_time_order (poseData : PoseData) :
  timesIncrease h poseData → (2 ≤ length poseData)%nat →
  (∀ f0 a, poseData !! 0%nat = Some f0 → tossPeakFrame h poseData = Some a →
           (time (h f0) <=? time (h a))%float = true) ∧
  (∀ a tf, tossPeakFrame h poseData = Some a → trophyPoseFrame h poseData = Some tf →
           (time (h a) <=? time (h tf))%float = true) ∧
  (∀ tf c, trophyPoseFrame h poseData = Some tf → contactPointFrame h poseData = Some c →
           (time (h tf) <=? time (h c))%float = true).
Proof.
  intros Hinc Hlen. pose proof (timesIncrease_NoDup _ Hinc) as Hnd.
  split; [|split].
  - intros f0 a H0 Ha.
    destruct (tossPeak_position h _ _ Ha) as (p & w & _ & Hp & _).
    apply (times_le poseData 0 p); (done || lia).
  - intros a tf Ha Hf.
    destruct (found_positions _ _ Hf)
      as (p & i & n & j & a' & c & Ha' & Hp & Hpi & Hi & _).
    assert (a' = a) as -> by congruence.
    apply (times_le poseData p i); (done || lia).
  - intros tf c Hf Hc.
    destruct (found_positions _ _ Hf)
      as (p & i & n & j & a & c' & _ & _ & _ & Hi & _ & Hn & Hc' & Hj).
    assert (c' = c) as -> by congruence.
    assert (n = i) as -> by (by eapply NoDup_lookup).
    apply (times_le poseData i (i + j)); (done || lia).
Qed.

(** X1: in a buffer of at least 10 frames the Toss Peak is absent exactly
    when no frame has a left-wrist [y] below [Infinity]; otherwise it is the
    time of the first frame that reaches the lowest left-wrist [y] of the
    whole buffer (its [y] is below [Infinity], nothing is strictly below it,
    everything before it is strictly above or not a number), and [indexOf]
    finds it where the scan did. *)
Theorem toss_peak_first_minimum (poseData : PoseData) (duration : float) :
  (10 ≤ length poseData)%nat →
  let r := analyzeKinematics h poseData duration in
  (TossPeak r = None ↔
   ∀ (k : nat) g wk, poseData !! k = Some g → joint h LEFT_WRIST g = Some wk →
                     (y wk <? Infinity)%float = false) ∧
  (∀ t, TossPeak r = Some t →
     ∃ (i : nat) f w,
       tossPeakIndex h poseData = Z.of_nat i ∧
       poseData !! i = Some f ∧ joint h LEFT_WRIST f = Some w ∧
       t = time (h f) ∧
       (y w <? Infinity)%float = true ∧
       (∀ (k : nat) g wk, poseData !! k = Some g → joint h LEFT_WRIST g = Some wk →
                          (y wk <? y w)%float = false) ∧
       (∀ (k : nat) g wk, (k < i)%nat → poseData !! k = Some g →
                          joint h LEFT_WRIST g = Some wk →
                          (y wk <=? y w)%float = false)).
Proof.
  intros Hlen r. subst r. unfold analyzeKinematics.
  rewrite long_buffer by done. simpl.
  pose proof (scan_spec h LEFT_WRIST poseData) as Hs.
  destruct (tossPeakFrame h poseData) as [a|] eqn:Ha; simpl.
  - destruct (tossPeak_position h _ _ Ha) as (p & w & Hp & Hi & Jw & Hinf & Hmin & Hfst).
    split.
    + split; [done|]. intros Hnone. by rewrite (Hnone p a w Hi Jw) in Hinf.
    + intros t [= <-]. by exists p, a, w.
  - unfold tossPeakFrame in Ha. rewrite Ha in Hs. split; [|done]. by split.
Qed.

(** X2: the extractor never reports a later moment without the earlier
    ones: a Contact Point comes with a Trophy Pose, a Trophy Pose with a
    Toss Peak, and a Toss Peak only from a buffer of at least 10 frames. *)
Theorem moments_short_circuit (poseData : PoseData) (duration : float) :
  let r := analyzeKinematics h poseData duration in
  (is_Some (ContactPoint r) → is_Some (TrophyPose r)) ∧
  (is_Some (TrophyPose r) → is_Some (TossPeak r)) ∧
  (is_Some (TossPeak r) → (10 ≤ length poseData)%nat).
Proof.
  intros r. subst r. unfold analyzeKinematics.
  destruct (short_or_long poseData) as [->|Hlen]; simpl.
  { repeat split; by intros []. }
  rewrite long_buffer by done. simpl. split; [|split; [|done]].
  - unfold contactPointFrame, trophyPoseIndex.
    destruct (trophyPoseFrame h poseData); simpl; [by eexists|by intros []].
  - unfold trophyPoseFrame, tossPeakIndex.
    destruct (tossPeakFrame h poseData); simpl; [by eexists|by intros []].
Qed.

(** X3: no timestamp is made up.  For a non-empty buffer the Serve Start
    is the first frame's time, and each of Toss Peak, Trophy Pose and
    Contact Point, when present, is the time of a frame of the buffer. *)
Theorem moments_are_frame_times (poseData : PoseData) (duration : float) :
  poseData ≠ [] →
  let r := analyzeKinematics h poseData duration in
  (∃ f, poseData !! 0%nat = Some f ∧ ServeStart r = Some (time (h f))) ∧
  (∀ t, TossPeak r = Some t ∨ TrophyPose r = Some t ∨ ContactPoint r = Some t →
        ∃ (i : nat) f, poseData !! i = Some f ∧ t = time (h f)).
Proof.
  intros Hne r. subst r. unfold analyzeKinematics.
  destruct poseData as [|f0 rest] eqn:Hpd; [done|]. rewrite <- Hpd.
  assert (poseData !! 0%nat = Some f0) as H0 by (by subst).
  destruct (short_or_long poseData) as [->|Hlen]; simpl.
  { split; [exists f0; by subst|]. intros t [?|[?|?]]; done. }
  rewrite long_buffer by done. simpl. rewrite H0. simpl.
  split; [by exists f0|]. intros t Ht.
  destruct (tossPeakFrame h poseData) as [a|] eqn:Ha.
  2:{ unfold contactPointFrame, trophyPoseIndex, trophyPoseFrame, tossPeakIndex in Ht.
      rewrite Ha in Ht. simpl in Ht. by destruct Ht as [?|[?|?]]. }
  destruct (tossPeak_position h _ _ Ha) as (p & w & _ & Hp & _).
  destruct (trophyPoseFrame h poseData) as [tf|] eqn:Hf.
  - destruct (found_positions _ _ Hf)
      as (p' & i & n & j & a' & c & _ & _ & _ & Hi & _ & _ & Hc & Hj).
    rewrite Hc in Ht. simpl in Ht.
    destruct Ht as [?|[?|?]]; simplify_eq; eauto.
  - unfold contactPointFrame, trophyPoseIndex in Ht. rewrite Hf in Ht.
    simpl in Ht. destruct Ht as [?|[?|?]]; simplify_eq; eauto.
Qed.

(** X4: in a buffer whose frame times grow strictly, the key moments come
    in the order of the serve: Serve Start <= Toss Peak <= Trophy Pose <=
    Contact Point, for those that are present. *)
Theorem moments_in_time_order (poseData : PoseData) (duration : float) :
  timesIncrease h poseData →
  let r := analyzeKinematics h poseData duration in
  (∀ s t, ServeStart r = Some s → TossPeak r = Some t → (s <=? t)%float = true) ∧
  (∀ t u, TossPeak r = Some t → TrophyPose r = Some u → (t <=? u)%float = true) ∧
  (∀ u v, TrophyPose r = Some u → ContactPoint r = Some v → (u <=? v)%float = true).
Proof.
  intros Hinc r. subst r. unfold analyzeKinematics.
  destruct (short_or_long poseData) as [->|Hlen]; [done|].
  rewrite long_buffer by done. simpl.
  destruct (frames_in_time_order poseData Hinc) as (Hstart & Htoss & Htrophy); [lia|].
  split; [|split].
  - destruct (poseData !! 0%nat) as [f0|] eqn:H0; [|done].
    destruct (tossPeakFrame h poseData) as [a|] eqn:Ha; [|done].
    intros s t [= <-] [= <-]. by apply Hstart.
  - destruct (tossPeakFrame h poseData) as [a|] eqn:Ha; [|done].
    destruct (trophyPoseFrame h poseData) as [tf|] eqn:Hf; [|done].
    intros t u [= <-] [= <-]. by apply Htoss.
  - destruct (trophyPoseFrame h poseData) as [tf|] eqn:Hf; [|done].
    destruct (contactPointFrame h poseData) as [c|] eqn:Hc; [|done].
    intros u v [= <-] [= <-]. by apply Htrophy.
Qed.

End ExtractorMore.

(** ** More on the collection loop *)

Section CollectorMore.
Context {M : JSMath}.

Lemma collecting_more frames v c : collecting frames c → collecting (frames ++ [v]) c.
Proof.
  intros (Hinc & Hlast & Hfrom & Hcount). split; [done|]. split; [done|].
  split; [|done]. intros f Hf. destruct (Hfrom f Hf) as (v' & Hv' & Hc).
  exists v'. split; [|done]. apply elem_of_app. by left.
Qed.

Lemma processFrame_collecting duration frames c v :
  resolved c = false → collecting frames c →
  collecting (frames ++ [v]) (processFrame duration c v).
Proof.
  intros Hres Hc. pose proof (collecting_more _ v _ Hc) as Hc'.
  destruct Hc' as (Hinc & Hlast & Hfrom & Hcount). unfold processFrame.
  destruct (paused v || ended v) eqn:Hend.
  { split; [done|]. split; [done|]. split; [done|]. simpl.
    rewrite length_app. simpl. rewrite Hres in Hcount. lia. }
  unfold gtb. destruct (lastTime c <? currentTime v)%float eqn:Hnew; [|done].
  assert (∀ f, f ∈ poseData c → (time f <? currentTime v)%float = true) as Hbelow.
  { intros f Hf. eapply leb_ltb_trans; [by apply Hlast|done]. }
  destruct (detected v) as [|lms others] eqn:Hdet.
  { split; [done|]. split; [|split; [done|]]; simpl.
    - intros f Hf. by apply ltb_leb, Hbelow.
    - rewrite length_app. simpl. rewrite Hres in Hcount. lia. }
  split; [|split; [|split]]; simpl.
  - intros i j f g Hij [Hf|[Hge Hf]]%lookup_app_Some Hg.
    + apply lookup_app_Some in Hg as [Hg|[_ Hg]]; [by eapply Hinc|].
      apply list_lookup_singleton_Some in Hg as [_ <-]. simpl.
      apply Hbelow. by eapply list_elem_of_lookup_2.
    + apply list_lookup_singleton_Some in Hf as [Hi _].
      apply lookup_lt_Some in Hg. rewrite length_app in Hg. simpl in Hg. lia.
  - intros f [Hf| ->%list_elem_of_singleton]%elem_of_app.
    + by apply ltb_leb, Hbelow.
    + simpl. by eapply ltb_leb_refl_r.
  - intros f [Hf| ->%list_elem_of_singleton]%elem_of_app; [by apply Hfrom|].
    exists v. split; [apply elem_of_app; right; by apply list_elem_of_singleton|].
    split; [done|]. split; [done|]. by exists others.
  - rewrite !length_app. simpl. rewrite Hres in Hcount. lia.
Qed.

Lemma run_snoc duration c frames v :
  runCollector duration c (frames ++ [v]) =
    (if resolved (runCollector duration c frames)
     then runCollector duration c frames
     else processFrame duration (runCollector duration c frames) v).
Proof.
  revert c. induction frames as [|u frames IH]; intros c; simpl.
  - by destruct (resolved c).
  - destruct (resolved c) eqn:Hr; [by rewrite Hr|]. apply IH.
Qed.

Lemma run_collecting duration frames :
  collecting frames (processVideoForPose duration frames).
Proof.
  unfold processVideoForPose.
  induction frames as [|v frames IH] using rev_ind.
  - split; [by intros i j f g _ Hf|]. split; [by intros f Hf%elem_of_nil|].
    split; [by intros f Hf%elem_of_nil|]. simpl. lia.
  - rewrite run_snoc.
    destruct (resolved (runCollector duration initCollector frames)) eqn:Hr.
    + by apply collecting_more.
    + by apply processFrame_collecting.
Qed.

Lemma run_playing duration c frames :
  Forall (fun v => paused v || ended v = false) frames →
  resolved c = false → resolved (runCollector duration c frames) = false.
Proof.
  intros Hall. revert c. induction Hall as [|v frames Hv _ IH]; intros c Hr; [done|].
  simpl. rewrite Hr. apply IH. unfold processFrame. rewrite Hv.
  by destruct (gtb _ _).
Qed.

Lemma heapOf_lookup (l : list LandmarkFrame) (i : nat) r :
  refsOf l !! i = Some r → ∃ f, l !! i = Some f ∧ heapOf l r = f.
Proof.
  unfold refsOf, heapOf, ref. intros [Hr Hlt]%lookup_seq. subst r. simpl.
  destruct (lookup_lt_is_Some_2 l i Hlt) as [f Hf]. exists f.
  rewrite Hf. split; reflexivity.
Qed.

(** The references handed to the extractor inherit the order of times. *)
Lemma framesIncrease_refs (l : list LandmarkFrame) :
  framesIncrease l → timesIncrease (heapOf l) (refsOf l).
Proof.
  intros Hinc i j r s Hij Hi Hj.
  destruct (heapOf_lookup _ _ _ Hi) as (f & Hf & ->).
  destruct (heapOf_lookup _ _ _ Hj) as (g & Hg & ->).
  by eapply Hinc.
Qed.


(** X6: every buffered frame was produced by a playing video frame on
    which a body was detected, with that frame's clock as its time and the
    first detected body as its landmarks; and the progress callback has been
    called at least once per buffered frame, plus once on completion. *)
Theorem collected_frames_provenance (duration : float) (frames : list VideoFrame) :
  let c := processVideoForPose duration frames in
  (∀ f, f ∈ poseData c → ∃ v, v ∈ frames ∧ collectedFrom v f) ∧
  (length (poseData c) + (if resolved c then 1 else 0) ≤ length (setProgress c))%nat.
Proof. by destruct (run_collecting duration frames) as (_ & _ & Hfrom & Hcount). Qed.

(** X7: the loop resolves at the first paused or ended frame and ignores
    whatever comes after it: the buffer is the one collected before that
    frame, the reports are those made before it followed by 100, and until
    then the promise is pending. *)
Theorem collection_stops_at_end
    (duration : float) (before after : list VideoFrame) (v : VideoFrame) :
  Forall (fun u => paused u || ended u = false) before →
  paused v || ended v = true →
  let c0 := processVideoForPose duration before in
  let c := processVideoForPose duration (before ++ v :: after) in
  resolved c0 = false ∧ resolved c = true ∧
  poseData c = poseData c0 ∧ setProgress c = setProgress c0 ++ [100%float].
Proof.
  intros Hplay Hend c0 c. subst c0 c. unfold processVideoForPose.
  pose proof (run_playing duration initCollector before Hplay eq_refl) as Hr0.
  split; [done|].
  replace (before ++ v :: after) with ((before ++ [v]) ++ after)
    by (by rewrite <- app_assoc).
  assert (runCollector duration initCollector (before ++ [v]) =
          processFrame duration (runCollector duration initCollector before) v) as Hv
    by (by rewrite run_snoc, Hr0).
  assert (∀ c l l', runCollector duration c (l ++ l') =
                    runCollector duration (runCollector duration c l) l') as Happ.
  { intros c l. revert c. induction l as [|u l IH]; intros c l'; simpl; [done|].
    destruct (resolved c) eqn:Hr; [|apply IH]. by rewrite run_resolved. }
  rewrite Happ, Hv. unfold processFrame at 1 2 3. rewrite Hend.
  rewrite run_resolved by done. done.
Qed.

(** X8: the upload form's scan, end to end: when the collection resolves,
    the buffer it stored has strictly increasing times and the key moments
    extracted from it are in the order of the serve, whatever the video
    element presented. *)
Theorem scan_moments_in_time_order
    (duration : float) (frames : list VideoFrame)
    (data : list LandmarkFrame) (r : KeyMoments) :
  handleProcessPose duration frames = Some (data, r) →
  framesIncrease data ∧
  (∀ s t, ServeStart r = Some s → TossPeak r = Some t → (s <=? t)%float = true) ∧
  (∀ t u, TossPeak r = Some t → TrophyPose r = Some u → (t <=? u)%float = true) ∧
  (∀ u v, TrophyPose r = Some u → ContactPoint r = Some v → (u <=? v)%float = true).
Proof.
  unfold handleProcessPose.
  destruct (resolved (processVideoForPose duration frames)); [|done].
  intros [= <- <-].
  destruct (run_collecting duration frames) as (Hinc & _).
  split; [done|]. set (data := poseData (processVideoForPose duration frames)) in *.
  unfold analyzeKinematics.
  destruct (short_or_long (refsOf data)) as [->|Hlen]; [done|].
  rewrite long_buffer by done. simpl.
  destruct (frames_in_time_order (heapOf data) (refsOf data))
    as (Hstart & Htoss & Htrophy); [by apply framesIncrease_refs|lia|].
  split; [|split].
  - destruct (refsOf data !! 0%nat) as [f0|] eqn:H0; [|done].
    destruct (tossPeakFrame (heapOf data) (refsOf data)) as [a|] eqn:Ha; [|done].
    intros s t [= <-] [= <-]. by apply Hstart.
  - destruct (tossPeakFrame (heapOf data) (refsOf data)) as [a|] eqn:Ha; [|done].
    destruct (trophyPoseFrame (heapOf data) (refsOf data)) as [tf|] eqn:Hf; [|done].
    intros t u [= <-] [= <-]. by apply Htoss.
  - destruct (trophyPoseFrame (heapOf data) (refsOf data)) as [tf|] eqn:Hf; [|done].
    destruct (contactPointFrame (heapOf data) (refsOf data)) as [c|] eqn:Hc; [|done].
    intros u v [= <-] [= <-]. by apply Htrophy.
Qed.

End CollectorMore.

(** ** More on the gesture detector *)

Section DetectorMore.
Context {M : JSMath}.

Lemma chained_snoc prev calls s :
  chained prev calls → validTransition (default prev (last calls)) s →
  chained prev (calls ++ [s]).
Proof.
  revert prev. induction calls as [|c calls IH]; intros prev; simpl.
  - by intros _ Hv.
  - intros [Hc Hrest] Hv. split; [done|]. apply IH; [done|].
    destruct calls as [|c' calls']; [done|].
    change (last (c :: c' :: calls')) with (last (c' :: calls')) in Hv.
    destruct (last (c' :: calls')) eqn:E; [exact Hv|].
    by apply last_None in E.
Qed.

Lemma last_snoc_default (prev s : SignalState) calls :
  default prev (last (calls ++ [s])) = s.
Proof. by rewrite last_snoc. Qed.

(** [reportState] keeps the log chained, as long as nothing was reported
    after [locked] and [locked] is only reported from [detecting]. *)
Lemma reportState_chained newState d :
  chained idle (onStateChange d) →
  lastReportedState d = default idle (last (onStateChange d)) →
  lastReportedState d ≠ locked →
  (newState = locked → lastReportedState d = detecting) →
  chained idle (onStateChange (reportState newState d)) ∧
  lastReportedState (reportState newState d) =
    default idle (last (onStateChange (reportState newState d))).
Proof.
  intros Hch Hlast Hnl Hlk. rewrite reportState_spec. simpl.
  case_decide as Heq.
  - rewrite app_nil_r. split; [done|]. by rewrite Heq.
  - split; [|by rewrite last_snoc_default].
    apply chained_snoc; [done|]. rewrite <- Hlast. split; [congruence|done].
Qed.

(** What one tick does to the counter and the remembered position. *)
Lemma detectLoop_tracking d results :
  let d' := detectLoop d results in
  match raisedWrist results with
  | None => stillFrameCount d' = 0 ∧ lastWristPos d' = None
  | Some w =>
      match lastWristPos d with
      | Some p =>
          if (distance w p <? STILLNESS_THRESHOLD)%float
          then stillFrameCount d' = stillFrameCount d + 1 ∧ lastWristPos d' = Some p
          else stillFrameCount d' = 1 ∧ lastWristPos d' = Some (x w, y w)
      | None => stillFrameCount d' = 1 ∧ lastWristPos d' = Some (x w, y w)
      end
  end.
Proof.
  intros d'. subst d'. unfold detectLoop.
  match goal with |- context [setScheduled true ?e] => set (d1 := e) end.
  assert (stillFrameCount
            (if STILL_FRAMES_REQUIRED <=? stillFrameCount d1
             then setScheduled false (reportState locked d1)
             else setScheduled true d1) = stillFrameCount d1 ∧
          lastWristPos
            (if STILL_FRAMES_REQUIRED <=? stillFrameCount d1
             then setScheduled false (reportState locked d1)
             else setScheduled true d1) = lastWristPos d1) as [-> ->].
  { destruct (STILL_FRAMES_REQUIRED <=? stillFrameCount d1);
      rewrite ?reportState_spec; done. }
  unfold d1. destruct (raisedWrist results) as [w|]; [|done].
  rewrite reportState_spec. simpl.
  destruct (lastWristPos d) as [p|]; [destruct (distance w p <? _)%float|]; done.
Qed.

Lemma detectLoop_anchored ticks d results :
  anchored ticks d → anchored (ticks ++ [results]) (detectLoop d results).
Proof.
  intros Ha. pose proof (detectLoop_tracking d results) as Ht. simpl in Ht.
  destruct (raisedWrist results) as [w|] eqn:Hr; [|by left].
  assert (anchored (ticks ++ [results])
            (setStillness 1 (Some (x w, y w)) d)) as Hreset.
  { right. exists ticks, results, w, []. by repeat split. }
  destruct (lastWristPos d) as [p|] eqn:Hp.
  2:{ destruct Ht as [Hc Hpos]. right. exists ticks, results, w, [].
      by repeat split. }
  destruct (distance w p <? STILLNESS_THRESHOLD)%float eqn:Hd.
  2:{ destruct Ht as [Hc Hpos]. right. exists ticks, results, w, [].
      by repeat split. }
  destruct Ht as [Hc Hpos].
  destruct Ha as [[_ ?]|(pre & t0 & w0 & rest & -> & Hr0 & Hp0 & Hc0 & Hstill)];
    [congruence|].
  right. exists pre, t0, w0, (rest ++ [results]).
  assert (p = (x w0, y w0)) as -> by congruence.
  split; [by rewrite <- app_assoc|]. split; [done|]. split; [done|]. split.
  - rewrite Hc, Hc0, length_app. simpl. lia.
  - apply Forall_app. split; [done|]. constructor; [|done].
    unfold stillAt. by rewrite Hr.
Qed.

Lemma run_snoc_detector d ticks results :
  runDetector d (ticks ++ [results]) =
    (if scheduled (runDetector d ticks)
     then detectLoop (runDetector d ticks) results
     else runDetector d ticks).
Proof. rewrite run_app. simpl. by destruct (scheduled _). Qed.

Lemma anchored_count ticks d : anchored ticks d → 0 ≤ stillFrameCount d.
Proof. intros [[-> _]|(pre & t0 & w0 & rest & _ & _ & _ & -> & _)]; lia. Qed.

Lemma detectLoop_count d results :
  stillFrameCount (detectLoop d results) ≤ Z.max 1 (stillFrameCount d + 1).
Proof.
  pose proof (detectLoop_tracking d results) as Ht. simpl in Ht.
  destruct (raisedWrist results); [|lia].
  destruct (lastWristPos d); [destruct (distance _ _ <? _)%float|]; lia.
Qed.

(** The ticks the loop has consumed, and what it keeps true of them. *)
Lemma run_anchored ticks :
  ∃ used more,
    ticks = used ++ more ∧
    (scheduled (runDetector initDetector ticks) = true → more = []) ∧
    anchored used (runDetector initDetector ticks) ∧
    stillFrameCount (runDetector initDetector ticks) ≤ STILL_FRAMES_REQUIRED.
Proof.
  induction ticks as [|t ticks IH] using rev_ind.
  - exists [], []. split; [done|]. split; [done|]. split; [by left|]. simpl.
    unfold STILL_FRAMES_REQUIRED. lia.
  - destruct IH as (used & more & Hsplit & Hall & Ha & Hhi).
    rewrite run_snoc_detector.
    pose proof (run_scheduled ticks) as Hs.
    destruct (scheduled (runDetector initDetector ticks)) eqn:Hsch.
    + rewrite (Hall eq_refl), app_nil_r in Hsplit. subst used.
      exists (ticks ++ [t]), []. split; [by rewrite app_nil_r|].
      split; [done|]. split; [by apply detectLoop_anchored|].
      pose proof (detectLoop_count (runDetector initDetector ticks) t).
      symmetry in Hs. apply negb_true_iff, Z.leb_gt in Hs.
      unfold STILL_FRAMES_REQUIRED in *. lia.
    + exists used, (more ++ [t]). split; [by rewrite Hsplit, app_assoc|].
      split; [intros; congruence|done].
Qed.

(** Along a run the log stays chained and its last entry is the last
    reported state. *)
Lemma run_chained ticks :
  chained idle (onStateChange (runDetector initDetector ticks)) ∧
  lastReportedState (runDetector initDetector ticks) =
    default idle (last (onStateChange (runDetector initDetector ticks))) ∧
  (scheduled (runDetector initDetector ticks) = true →
   lastReportedState (runDetector initDetector ticks) ≠ locked).
Proof.
  induction ticks as [|t ticks IH] using rev_ind; [done|].
  rewrite run_snoc_detector. destruct IH as (Hch & Hlast & Hnl).
  destruct (scheduled (runDetector initDetector ticks)) eqn:Hsch.
  2:{ split; [done|]. split; [done|]. intros; congruence. }
  specialize (Hnl eq_refl). set (d := runDetector initDetector ticks) in *.
  unfold detectLoop. destruct (raisedWrist t) as [w|].
  - destruct (reportState_chained detecting d Hch Hlast Hnl) as [Hch1 Hlast1];
      [done|].
    assert (lastReportedState (reportState detecting d) = detecting) as Hdet
      by (by rewrite reportState_spec).
    set (d1 := match lastWristPos (reportState detecting d) with
               | Some p => _ | None => _ end).
    assert (onStateChange d1 = onStateChange (reportState detecting d) ∧
            lastReportedState d1 = detecting) as [Hcalls1 Hlast1'].
    { unfold d1. destruct (lastWristPos _);
        [destruct (distance _ _ <? _)%float|]; simpl; by split. }
    destruct (STILL_FRAMES_REQUIRED <=? stillFrameCount d1).
    + destruct (reportState_chained locked d1) as [Hch2 Hlast2].
      * by rewrite Hcalls1.
      * by rewrite Hcalls1, Hlast1', <- Hlast1.
      * by rewrite Hlast1'.
      * done.
      * split; [done|]. split; [done|]. simpl. discriminate.
    + simpl. rewrite Hcalls1, Hlast1'. split; [done|].
      split; [by rewrite <- Hlast1|]. intros _. discriminate.
  - destruct (reportState_chained idle d Hch Hlast Hnl) as [Hch1 Hlast1]; [done|].
    simpl. split; [done|]. split; [done|]. intros _.
    rewrite reportState_spec. simpl. discriminate.
Qed.

Lemma run_still_locks p count calls ticks :
  Forall (fun t => stillAt p t = true) ticks →
  count < STILL_FRAMES_REQUIRED →
  STILL_FRAMES_REQUIRED ≤ count + Z.of_nat (length ticks) →
  locked ∈ onStateChange (runDetector (tracking p count calls) ticks).
Proof.
  intros Hall. revert count. induction Hall as [|t ticks Ht _ IH]; intros count Hlo Hhi.
  - simpl in Hhi. lia.
  - simpl. destruct (decide (STILL_FRAMES_REQUIRED ≤ count + 1)) as [Hlock|Hno].
    + rewrite still_lock by done. rewrite run_stopped by done. simpl.
      apply elem_of_app. right. by apply list_elem_of_singleton.
    + rewrite still_step by (done || lia). apply IH; [lia|].
      simpl in Hhi. lia.
Qed.

(** A raised tick either locks or leaves the detector tracking a position
    the tick itself is still at. *)
Lemma raised_step d results w :
  raisedWrist results = Some w → 0 ≤ stillFrameCount d →
  (scheduled (detectLoop d results) = false ∧
   locked ∈ onStateChange (detectLoop d results)) ∨
  ∃ q k calls,
    detectLoop d results = tracking q k calls ∧
    1 ≤ k ∧ k < STILL_FRAMES_REQUIRED ∧
    (q = (x w, y w) ∨ stillAt q results = true).
Proof.
  intros Hr Hc. unfold detectLoop. rewrite Hr, reportState_spec. simpl.
  set (calls := onStateChange d ++ _).
  assert (∃ q k, 1 ≤ k < STILL_FRAMES_REQUIRED ∧
                 (q = (x w, y w) ∨ stillAt q results = true) ∧
                 tracking (x w, y w) 1 calls = tracking q k calls) as Hreset.
  { exists (x w, y w), 1. split; [unfold STILL_FRAMES_REQUIRED; lia|].
    split; [by left|done]. }
  destruct (lastWristPos d) as [p|];
    [destruct (distance w p <? STILLNESS_THRESHOLD)%float eqn:Hd|]; simpl.
  - destruct (Z.leb_spec STILL_FRAMES_REQUIRED (stillFrameCount d + 1)); simpl.
    + left. split; [done|]. apply elem_of_app. right. by apply list_elem_of_singleton.
    + right. exists p, (stillFrameCount d + 1), calls. split; [done|].
      split; [lia|]. split; [done|]. right. unfold stillAt. by rewrite Hr.
  - right. destruct Hreset as (q & k & Hk & Hq & Heq).
    exists q, k, calls. split; [rewrite <- Heq; reflexivity|].
    split; [lia|]. split; [lia|done].
  - right. destruct Hreset as (q & k & Hk & Hq & Heq).
    exists q, k, calls. split; [rewrite <- Heq; reflexivity|].
    split; [lia|]. split; [lia|done].
Qed.

(** X9: the calls made to the state callback form a chain of valid
    transitions from the initial [idle]: two successive reports always
    differ (the first is never [idle]), nothing is reported after [locked],
    and [locked] is only ever reported right after [detecting]. *)
Theorem reports_are_transitions (ticks : list Detection) :
  chained idle (detectSignalInStream ticks).
Proof. by destruct (run_chained ticks) as [Hch _]. Qed.

(** The ticks the loop has consumed: it was still scheduled before each of
    them, and the rest of the input changes nothing. *)
Lemma run_consumed ticks :
  ∃ used more,
    ticks = used ++ more ∧
    runDetector initDetector used = runDetector initDetector ticks ∧
    anchored used (runDetector initDetector ticks) ∧
    stillFrameCount (runDetector initDetector ticks) ≤ STILL_FRAMES_REQUIRED ∧
    (scheduled (runDetector initDetector ticks) = true → more = []) ∧
    (∀ shorter longer, used = shorter ++ longer → longer ≠ [] →
       scheduled (runDetector initDetector shorter) = true).
Proof.
  induction ticks as [|t ticks IH] using rev_ind.
  - exists [], []. split; [done|]. split; [done|]. split; [by left|].
    split; [simpl; unfold STILL_FRAMES_REQUIRED; lia|]. split; [done|].
    intros shorter longer Heq Hne. symmetry in Heq.
    apply app_eq_nil in Heq as [_ ->]. done.
  - destruct IH as (used & more & Hsplit & Hrun & Ha & Hhi & Hall & Hpre).
    rewrite run_snoc_detector.
    pose proof (run_scheduled ticks) as Hs.
    destruct (scheduled (runDetector initDetector ticks)) eqn:Hsch.
    + rewrite (Hall eq_refl), app_nil_r in Hsplit. subst used.
      exists (ticks ++ [t]), []. split; [by rewrite app_nil_r|].
      split; [by rewrite run_snoc_detector, Hsch|].
      split; [by apply detectLoop_anchored|]. split.
      { pose proof (detectLoop_count (runDetector initDetector ticks) t).
        symmetry in Hs. apply negb_true_iff, Z.leb_gt in Hs.
        unfold STILL_FRAMES_REQUIRED in *. lia. }
      split; [done|]. intros shorter longer Heq Hne.
      destruct longer as [|l longer _] using rev_ind; [done|].
      rewrite app_assoc in Heq. apply app_inj_tail in Heq as [Heq _].
      destruct longer as [|l' longer'].
      * rewrite app_nil_r in Heq. by subst shorter.
      * by apply (Hpre shorter (l' :: longer')).
    + exists used, (more ++ [t]). split; [by rewrite Hsplit, app_assoc|].
      split; [done|]. split; [done|]. split; [done|].
      split; [intros; congruence|done].
Qed.

(** X10: the detector never locks on less than a held gesture: if [locked]
    is reported, the ticks consumed end with 120 consecutive raised-hand
    ticks, the last 119 of them within the stillness threshold of the wrist
    position of the first, which is the position the detector remembers;
    [locked] is reported at the last of these ticks and not before, and the
    ticks after them are not consumed. *)
Theorem lock_needs_still_run (ticks : list Detection) :
  locked ∈ detectSignalInStream ticks →
  ∃ pre t0 w0 rest more,
    ticks = pre ++ t0 :: rest ++ more ∧ raisedWrist t0 = Some w0 ∧
    length rest = 119%nat ∧
    Forall (fun t => stillAt (x w0, y w0) t = true) rest ∧
    lastWristPos (runDetector initDetector ticks) = Some (x w0, y w0) ∧
    runDetector initDetector ticks = runDetector initDetector (pre ++ t0 :: rest) ∧
    (∀ others, runDetector initDetector (pre ++ t0 :: rest ++ others) =
               runDetector initDetector (pre ++ t0 :: rest)) ∧
    (∀ shorter longer, pre ++ t0 :: rest = shorter ++ longer → longer ≠ [] →
       locked ∉ detectSignalInStream shorter).
Proof.
  unfold detectSignalInStream. intros Hlocked.
  assert (scheduled (runDetector initDetector ticks) = false) as Hstop.
  { destruct (run_lockedLast initDetector ticks eq_refl)
      as (extra & Hex & [[_ Hc]|[Hs _]]); [|done].
    rewrite Hc in Hlocked. simpl in Hlocked. done. }
  pose proof (run_scheduled ticks) as Hs. rewrite Hstop in Hs.
  symmetry in Hs. apply negb_false_iff, Z.leb_le in Hs.
  destruct (run_consumed ticks) as (used & more & Hsplit & Hrun & Ha & Hhi & _ & Hpre).
  destruct Ha as [[Hc _]|(pre & t0 & w0 & rest & -> & Hr0 & Hpos & Hc & Hstill)].
  { unfold STILL_FRAMES_REQUIRED in *. lia. }
  exists pre, t0, w0, rest, more. split.
  { rewrite Hsplit. by rewrite <- app_assoc. }
  split; [done|]. split; [unfold STILL_FRAMES_REQUIRED in *; lia|].
  split; [done|]. split; [done|]. split; [done|]. split.
  { intros others.
    replace (pre ++ t0 :: rest ++ others) with ((pre ++ t0 :: rest) ++ others)
      by (by rewrite <- app_assoc).
    rewrite run_app, Hrun. by apply run_stopped. }
  intros shorter longer Heq Hne Hin.
  pose proof (Hpre shorter longer Heq Hne) as Hsch.
  destruct (run_lockedLast initDetector shorter eq_refl)
    as (extra & Hex & [[_ Hc']|[Hs' _]]); [|congruence].
  rewrite Hc' in Hin. simpl in Hin. done.
Qed.

(** X11: holding the hand still always locks: after any ticks whatever,
    120 ticks with the raised wrist at one and the same position (which the
    host's arithmetic puts within the threshold of itself) get [locked]
    reported. *)
Theorem held_still_locks (before : list Detection) (t : Detection) (w : NormalizedLandmark) :
  raisedWrist t = Some w →
  stillAt (x w, y w) t = true →
  locked ∈ detectSignalInStream (before ++ replicate 120 t).
Proof.
  intros Hr Hstill. unfold detectSignalInStream.
  change (replicate 120 t) with ([t] ++ replicate 119 t).
  rewrite !run_app. set (rest := replicate 119 t).
  set (d := runDetector initDetector before).
  destruct (scheduled d) eqn:Hsch.
  2:{ rewrite !run_stopped by (by rewrite ?run_stopped).
      destruct (run_lockedLast initDetector before eq_refl)
        as (extra & Hex & [[Hs _]|[_ Hc]]); [unfold d in Hsch; congruence|].
      fold d in Hc. rewrite Hc. simpl.
      apply elem_of_app. right. by apply list_elem_of_singleton. }
  pose proof (run_scheduled before) as Hs. fold d in Hs. rewrite Hsch in Hs.
  symmetry in Hs. apply negb_true_iff, Z.leb_gt in Hs.
  destruct (run_anchored before) as (_ & _ & _ & _ & Ha%anchored_count & _).
  fold d in Ha.
  destruct (raised_step d t w Hr Ha)
    as [[Hstop Hin]|(q & k & calls & Hd' & Hk1 & Hk2 & Hq)];
    cbn [runDetector]; rewrite Hsch.
  - by rewrite run_stopped.
  - rewrite Hd'. apply run_still_locks; [|done|].
    + apply Forall_replicate. by destruct Hq as [->|Hq].
    + unfold rest. rewrite length_replicate. unfold STILL_FRAMES_REQUIRED. lia.
Qed.

End DetectorMore.

(** ** The closest-frame lookup *)

Section ClosestFrame.
Variable h : Heap.



End ClosestFrame.

(** ** What the extractor reads *)

Section ExtractorReads.
Context {M : JSMath}.

Lemma elbowAngleDeg_xy (s1 e1 w1 s2 e2 w2 : NormalizedLandmark) :
  (x s1, y s1) = (x s2, y s2) → (x e1, y e1) = (x e2, y e2) →
  (x w1, y w1) = (x w2, y w2) →
  elbowAngleDeg s1 e1 w1 = elbowAngleDeg s2 e2 w2.
Proof.
  intros [= Hsx Hsy] [= Hex Hey] [= Hwx Hwy]. unfold elbowAngleDeg.
  by rewrite Hsx, Hsy, Hex, Hey, Hwx, Hwy.
Qed.

Lemma sameReadings_joint h1 h2 (buf : PoseData) j f :
  sameReadings h1 h2 buf → f ∈ buf →
  j = LEFT_WRIST ∨ j = RIGHT_WRIST ∨ j = RIGHT_SHOULDER ∨ j = RIGHT_ELBOW →
  match joint h1 j f, joint h2 j f with
  | Some a, Some b => (x a, y a) = (x b, y b)
  | None, None => True
  | _, _ => False
  end.
Proof.
  intros Hsame Hf Hj. destruct (Hsame f Hf) as (_ & Hread).
  specialize (Hread j Hj).
  destruct (joint h1 j f), (joint h2 j f); simpl in *; try done; congruence.
Qed.

Lemma keepLower_same h1 h2 (buf : PoseData) j cur f :
  sameReadings h1 h2 buf →
  j = LEFT_WRIST ∨ j = RIGHT_WRIST ∨ j = RIGHT_SHOULDER ∨ j = RIGHT_ELBOW →
  f ∈ buf → (∀ c, cur = Some c → c ∈ buf) →
  keepLower h1 j cur f = keepLower h2 j cur f ∧
  (∀ c, keepLower h1 j cur f = Some c → c ∈ buf).
Proof.
  intros Hsame Hj Hf Hcur.
  assert (extremeY h1 j cur = extremeY h2 j cur) as Hext.
  { destruct cur as [c|]; [|done]. simpl.
    pose proof (sameReadings_joint h1 h2 buf j c Hsame (Hcur c eq_refl) Hj) as Hc.
    destruct (joint h1 j c), (joint h2 j c); try done. by simplify_eq. }
  pose proof (sameReadings_joint h1 h2 buf j f Hsame Hf Hj) as Hjf.
  unfold keepLower. rewrite <- Hext.
  destruct (joint h1 j f) as [a|], (joint h2 j f) as [b|]; try done.
  assert (y a = y b) as <- by (by simplify_eq).
  split; [done|]. intros c. destruct (y a <? _)%float; [by intros [= <-]|auto].
Qed.

Lemma scan_same h1 h2 (buf : PoseData) j (l : list ref) cur :
  sameReadings h1 h2 buf →
  j = LEFT_WRIST ∨ j = RIGHT_WRIST ∨ j = RIGHT_SHOULDER ∨ j = RIGHT_ELBOW →
  (∀ f, f ∈ l → f ∈ buf) → (∀ c, cur = Some c → c ∈ buf) →
  foldl (keepLower h1 j) cur l = foldl (keepLower h2 j) cur l.
Proof.
  intros Hsame Hj. revert cur. induction l as [|a l IH]; intros cur Hl Hcur; [done|].
  simpl.
  destruct (keepLower_same h1 h2 buf j cur a Hsame Hj) as [Heq Hin];
    [apply Hl; by left|done|].
  rewrite <- Heq. apply IH; [|done]. intros f Hf. apply Hl. by right.
Qed.

Lemma isTrophyPose_same h1 h2 (buf : PoseData) f :
  sameReadings h1 h2 buf → f ∈ buf → isTrophyPose h1 f = isTrophyPose h2 f.
Proof.
  intros Hsame Hf. unfold isTrophyPose.
  pose proof (sameReadings_joint h1 h2 buf RIGHT_SHOULDER f Hsame Hf
                ltac:(right; right; by left)) as Hs.
  pose proof (sameReadings_joint h1 h2 buf RIGHT_ELBOW f Hsame Hf
                ltac:(right; right; by right)) as He.
  pose proof (sameReadings_joint h1 h2 buf RIGHT_WRIST f Hsame Hf
                ltac:(right; by left)) as Hw.
  destruct (joint h1 RIGHT_SHOULDER f) as [s1|], (joint h2 RIGHT_SHOULDER f) as [s2|];
    try done.
  destruct (joint h1 RIGHT_ELBOW f) as [e1|], (joint h2 RIGHT_ELBOW f) as [e2|];
    try done.
  destruct (joint h1 RIGHT_WRIST f) as [w1|], (joint h2 RIGHT_WRIST f) as [w2|];
    try done.
  rewrite (elbowAngleDeg_xy s1 e1 w1 s2 e2 w2) by done.
  assert (y w1 = y w2) as -> by congruence.
  assert (y e1 = y e2) as -> by congruence.
  done.
Qed.

Lemma firstTrophy_same h1 h2 (buf : PoseData) (l : list ref) :
  sameReadings h1 h2 buf → (∀ f, f ∈ l → f ∈ buf) →
  firstTrophy h1 l = firstTrophy h2 l.
Proof.
  intros Hsame. induction l as [|a l IH]; intros Hl; [done|]. simpl.
  rewrite (isTrophyPose_same h1 h2 buf a Hsame) by (apply Hl; by left).
  destruct (isTrophyPose h2 a); [done|]. apply IH. intros f Hf. apply Hl. by right.
Qed.

Lemma framesFrom_elem (i : Z) (buf : PoseData) f : f ∈ framesFrom i buf → f ∈ buf.
Proof. unfold framesFrom. intros Hf. by eapply subseteq_drop. Qed.

(** X13: the extractor reads nothing but the frame times and the [x], [y]
    of four joints (left wrist, right wrist, right shoulder, right elbow):
    two heaps that agree on those for the frames of the buffer give the
    same key moments, whatever the depth [z], the other joints and the
    durations are. *)
Theorem extractor_reads_four_joints
    (h1 h2 : Heap) (buf : PoseData) (d1 d2 : float) :
  sameReadings h1 h2 buf →
  analyzeKinematics h1 buf d1 = analyzeKinematics h2 buf d2.
Proof.
  intros Hsame.
  assert (∀ o : option ref, (∀ c, o = Some c → c ∈ buf) →
            frameTime h1 o = frameTime h2 o) as Htime.
  { intros [c|] Hc; [|done]. simpl. f_equal. by apply Hsame, Hc. }
  assert (tossPeakFrame h1 buf = tossPeakFrame h2 buf) as Htoss.
  { apply (scan_same h1 h2 buf); [done|by left|done|done]. }
  assert (trophyPoseFrame h1 buf = trophyPoseFrame h2 buf) as Htrophy.
  { unfold trophyPoseFrame, tossPeakIndex. rewrite Htoss.
    destruct (_ =? _); [done|].
    apply (firstTrophy_same h1 h2 buf); [done|]. apply framesFrom_elem. }
  assert (contactPointFrame h1 buf = contactPointFrame h2 buf) as Hcontact.
  { unfold contactPointFrame, trophyPoseIndex. rewrite Htrophy.
    destruct (_ =? _); [done|].
    apply (scan_same h1 h2 buf); [done|right; by left|apply framesFrom_elem|done]. }
  unfold analyzeKinematics. destruct (_ <? _).
  - destruct buf as [|f0 buf']; [done|]. do 2 f_equal.
    apply Hsame. by left.
  - rewrite <- Htoss, <- Htrophy, <- Hcontact. f_equal; apply Htime.
    + intros c Hc. by eapply list_elem_of_lookup_2.
    + intros c Hc. pose proof (scan_spec h1 LEFT_WRIST buf) as Hs.
      unfold tossPeakFrame in Hc. rewrite Hc in Hs.
      destruct Hs as (i & w & Hi & _). by eapply list_elem_of_lookup_2.
    + intros c Hc. destruct (trophyPose_position h1 _ _ Hc)
        as (p & i & n & _ & _ & Hi & _). by eapply list_elem_of_lookup_2.
    + intros c Hc.
      destruct (trophyPoseFrame h1 buf) as [tf|] eqn:Hf.
      * destruct (contactPoint_position h1 _ _ Hf)
          as (n & j & c' & w & _ & Hc' & Hj & _).
        assert (c' = c) as -> by congruence.
        eapply framesFrom_elem. by eapply list_elem_of_lookup_2.
      * unfold contactPointFrame, trophyPoseIndex in Hc. by rewrite Hf in Hc.
Qed.

End ExtractorReads.

(** *** The additional properties on the sample data *)

Lemma serve15_collected :
  poseData (processVideoForPose 15%float serve15Playback) = serve15.
Proof. vm_compute. reflexivity. Qed.

Lemma serve15_times_increase : timesIncrease (heapOf serve15) (refsOf serve15).
Proof.
  apply framesIncrease_refs. rewrite <- serve15_collected.
  by destruct (run_collecting 15%float serve15Playback) as (Hinc & _).
Qed.

Lemma toss_peak_first_minimum_witness :
  let h := heapOf serve15 in
  let buf := refsOf serve15 in
  let r := analyzeKinematics h buf 15%float in
  (10 ≤ length buf)%nat ∧ TossPeak r = Some 5%float ∧
  (TossPeak r = None ↔
   ∀ (k : nat) g wk, buf !! k = Some g → joint h LEFT_WRIST g = Some wk →
                     (y wk <? Infinity)%float = false) ∧
  (∀ t, TossPeak r = Some t →
     ∃ (i : nat) f w,
       tossPeakIndex h buf = Z.of_nat i ∧
       buf !! i = Some f ∧ joint h LEFT_WRIST f = Some w ∧
       t = time (h f) ∧
       (y w <? Infinity)%float = true ∧
       (∀ (k : nat) g wk, buf !! k = Some g → joint h LEFT_WRIST g = Some wk →
                          (y wk <? y w)%float = false) ∧
       (∀ (k : nat) g wk, (k < i)%nat → buf !! k = Some g →
                          joint h LEFT_WRIST g = Some wk →
                          (y wk <=? y w)%float = false)).
Proof.
  assert (10 ≤ length (refsOf serve15))%nat as Hlen by (vm_compute; lia).
  split; [exact Hlen|]. split; [vm_compute; reflexivity|].
  exact (toss_peak_first_minimum (heapOf serve15) (refsOf serve15) 15%float Hlen).
Defined.

Lemma moments_are_frame_times_witness :
  let h := heapOf serve15 in
  let buf := refsOf serve15 in
  buf ≠ [] ∧
  let r := analyzeKinematics h buf 15%float in
  (∃ f, buf !! 0%nat = Some f ∧ ServeStart r = Some (time (h f))) ∧
  (∀ t, TossPeak r = Some t ∨ TrophyPose r = Some t ∨ ContactPoint r = Some t →
        ∃ (i : nat) f, buf !! i = Some f ∧ t = time (h f)).
Proof.
  assert (refsOf serve15 ≠ []) as Hne by discriminate.
  split; [exact Hne|].
  exact (moments_are_frame_times (heapOf serve15) (refsOf serve15) 15%float Hne).
Defined.

Lemma moments_in_time_order_witness :
  let h := heapOf serve15 in
  let buf := refsOf serve15 in
  timesIncrease h buf ∧
  let r := analyzeKinematics h buf 15%float in
  (∀ s t, ServeStart r = Some s → TossPeak r = Some t → (s <=? t)%float = true) ∧
  (∀ t u, TossPeak r = Some t → TrophyPose r = Some u → (t <=? u)%float = true) ∧
  (∀ u v, TrophyPose r = Some u → ContactPoint r = Some v → (u <=? v)%float = true).
Proof.
  split; [exact serve15_times_increase|].
  exact (moments_in_time_order (heapOf serve15) (refsOf serve15) 15%float
           serve15_times_increase).
Defined.

Lemma collection_stops_at_end_witness :
  let before := [playing 0 noBody; playing 1 (leftWristAt 0.5 0.25);
                 playing 1 (leftWristAt 0.5 0.25)]%float in
  let after := [playing 3 (leftWristAt 0.5 0.25)]%float in
  let c0 := processVideoForPose 2%float before in
  let c := processVideoForPose 2%float (before ++ finished 2 :: after) in
  resolved c0 = false ∧ resolved c = true ∧
  poseData c = poseData c0 ∧ setProgress c = setProgress c0 ++ [100%float].
Proof.
  apply (collection_stops_at_end 2%float
           [playing 0 noBody; playing 1 (leftWristAt 0.5 0.25);
            playing 1 (leftWristAt 0.5 0.25)]%float
           [playing 3 (leftWristAt 0.5 0.25)]%float (finished 2)).
  - repeat constructor.
  - reflexivity.
Defined.

Lemma scan_moments_in_time_order_witness :
  let r := {| ServeStart := Some 0%float; TossPeak := Some 5%float;
              TrophyPose := Some 8%float; ContactPoint := Some 12%float |} in
  handleProcessPose 15%float serve15Playback = Some (serve15, r) ∧
  framesIncrease serve15 ∧
  (∀ s t, ServeStart r = Some s → TossPeak r = Some t → (s <=? t)%float = true) ∧
  (∀ t u, TossPeak r = Some t → TrophyPose r = Some u → (t <=? u)%float = true) ∧
  (∀ u v, TrophyPose r = Some u → ContactPoint r = Some v → (u <=? v)%float = true).
Proof.
  assert (handleProcessPose 15%float serve15Playback =
            Some (serve15,
                  {| ServeStart := Some 0%float; TossPeak := Some 5%float;
                     TrophyPose := Some 8%float; ContactPoint := Some 12%float |}))
    as Hscan by (vm_compute; reflexivity).
  split; [exact Hscan|].
  exact (scan_moments_in_time_order 15%float serve15Playback serve15 _ Hscan).
Defined.

Lemma lock_needs_still_run_witness :
  let ticks := noBody :: replicate 120 (leftWristAt 0.5 0.25) ++ [noBody] in
  locked ∈ detectSignalInStream ticks ∧
  ∃ pre t0 w0 rest more,
    ticks = pre ++ t0 :: rest ++ more ∧ raisedWrist t0 = Some w0 ∧
    length rest = 119%nat ∧
    Forall (fun t => stillAt (x w0, y w0) t = true) rest ∧
    lastWristPos (runDetector initDetector ticks) = Some (x w0, y w0) ∧
    runDetector initDetector ticks = runDetector initDetector (pre ++ t0 :: rest) ∧
    (∀ others, runDetector initDetector (pre ++ t0 :: rest ++ others) =
               runDetector initDetector (pre ++ t0 :: rest)) ∧
    (∀ shorter longer, pre ++ t0 :: rest = shorter ++ longer → longer ≠ [] →
       locked ∉ detectSignalInStream shorter).
Proof.
  assert (locked ∈ detectSignalInStream
            (noBody :: replicate 120 (leftWristAt 0.5 0.25) ++ [noBody])) as Hin.
  { replace (detectSignalInStream _) with [detecting; locked]
      by (vm_compute; reflexivity).
    apply elem_of_cons. right. apply elem_of_cons. by left. }
  split; [exact Hin|].
  exact (lock_needs_still_run _ Hin).
Defined.

Lemma held_still_locks_witness :
  let before := [noBody; leftWristAt 0.75 0.25; leftWristAt 0.75 0.25] in
  let t := leftWristAt 0.5 0.25 in
  raisedWrist t = Some (pt 0.5 0.25) ∧
  stillAt (0.5, 0.25)%float t = true ∧
  locked ∈ detectSignalInStream (before ++ replicate 120 t).
Proof.
  assert (raisedWrist (leftWristAt 0.5 0.25) = Some (pt 0.5 0.25)) as Hr
    by reflexivity.
  assert (stillAt (x (pt 0.5 0.25), y (pt 0.5 0.25)) (leftWristAt 0.5 0.25) = true)
    as Hs by (vm_compute; reflexivity).
  split; [exact Hr|]. split; [exact Hs|].
  exact (held_still_locks
           [noBody; leftWristAt 0.75 0.25; leftWristAt 0.75 0.25]
           (leftWristAt 0.5 0.25) (pt 0.5 0.25) Hr Hs).
Defined.


Lemma extractor_reads_four_joints_witness :
  let h1 := heapOf serve15 in
  let h2 := heapOf serve15OtherDepth in
  let buf := refsOf serve15 in
  sameReadings h1 h2 buf ∧ h1 0%nat ≠ h2 0%nat ∧
  analyzeKinematics h1 buf 15%float = analyzeKinematics h2 buf 30%float.
Proof.
  assert (sameReadings (heapOf serve15) (heapOf serve15OtherDepth) (refsOf serve15))
    as Hsame.
  { intros f Hf. change (refsOf serve15) with (seq 0 15) in Hf.
    apply elem_of_seq in Hf as [_ Hf]. simpl in Hf.
    do 15 (destruct f as [|f]; [split; [reflexivity|];
      by intros j [-> | [-> | [-> | ->]]]; vm_compute|]).
    lia. }
  split; [exact Hsame|]. split.
  - intros Heq.
    apply (f_equal (fun f => match landmarks f !! LEFT_WRIST with
                             | Some w => (z w =? 0)%float
                             | None => false
                             end)) in Heq.
    vm_compute in Heq. discriminate.
  - exact (extractor_reads_four_joints _ _ _ 15%float 30%float Hsame).
Defined.
